(** * Pascal VOC 2012 segmentation utilities ([utils.py]): a shallow embedding

    The development follows the source file top to bottom: the colour table
    and the label decoding, the dataset constructor, and the family of
    segmentation metrics.

    Conventions of the embedding.
    - Python [int]s and the [int64] entries of class-index tensors are [Z];
      no count computed here can leave the [int64] range, since it is bounded
      by the number of elements of a tensor.
    - Floating-point numbers ([float], [torch.float], [np.float64]) are read
      as the exact rationals they approximate, in canonical form ([Qc]), so
      that two results are compared with Leibniz equality.  Rounding is not
      modelled: an equation proved below is an equation between the real
      numbers that the floating-point results approximate.  Where a
      property needs more than that, its statement stays where the
      floating-point result is the exact one or has the property itself:
      the count that [pixel_accuracy] takes in [float32] is a sum of zeros
      and ones, exact on tensors of at most 2^24 elements
      ([float32_exact]); a bound or a value 1 of a smoothed ratio is stated
      at the smoothing term that the code has by default.
    - Exceptions are values: a function that can raise returns a [result].
    - Class-index tensors are a shape together with the row-major list of
      their elements; the binary element-wise operations are given for
      operands of one shape, which is the only way the metrics use them
      (broadcasting is not modelled: a property that depends on the
      operation assumes tensors of one shape).
    - Images are arrays indexed by channel, row and column. *)

From Stdlib Require Import ZArith QArith Qcanon Lia.
From Stdlib.Strings Require Import Byte.
From stdpp Require Import base option list gmap numbers.

(** ** Python exceptions *)

Inductive exn : Type :=
  | AssertionError
  | ZeroDivisionError
  | IndexError.

Inductive result (A : Type) : Type :=
  | Ok (a : A)
  | Raise (e : exn).
Arguments Ok {A} a.
Arguments Raise {A} e.

#[export] Instance result_ret : MRet result := fun A a => Ok a.
#[export] Instance result_bind : MBind result := fun A B f m =>
  match m with
  | Ok a => f a
  | Raise e => Raise e
  end.

(** A subscript that may fail: [o] is the outcome of a bounds-checked read. *)
Definition subscript {A} (o : option A) : result A :=
  match o with
  | Some a => Ok a
  | None => Raise IndexError
  end.

(** ** Numbers *)

Abbreviation float := Qc.

(** An integer used where a float is expected. *)
Definition of_int (z : Z) : float := Qc_of_Z z.

(** [a / b] on a Python float and a Python int. *)
Definition truediv (a : float) (b : Z) : result float :=
  if decide (b = 0%Z) then Raise ZeroDivisionError else Ok (a / of_int b)%Qc.

(** ** Tensors *)

Record tensor (A : Type) : Type := Tensor {
  shape : list nat;
  data : list A
}.
Arguments Tensor {A} shape data.
Arguments shape {A} t.
Arguments data {A} t.

(** The number of elements that a shape announces. *)
Definition numel (s : list nat) : nat := foldr Nat.mul 1%nat s.

Definition well_formed {A} (t : tensor A) : Prop :=
  length (data t) = numel (shape t).

#[export] Instance well_formed_dec {A} (t : tensor A) : Decision (well_formed t).
Proof. unfold well_formed. apply _. Defined.

(** [t == i] *)
Definition eq_scalar (t : tensor Z) (i : Z) : tensor bool :=
  Tensor (shape t) ((fun v => Z.eqb v i) <$> data t).

(** [a == b] *)
Definition eq_tensor (a b : tensor Z) : tensor bool :=
  Tensor (shape a) (zip_with Z.eqb (data a) (data b)).

(** [torch.logical_and(a, b)] and [torch.logical_or(a, b)], on operands of
    one shape. *)
Definition logical_and (a b : tensor bool) : tensor bool :=
  Tensor (shape a) (zip_with andb (data a) (data b)).

Definition logical_or (a b : tensor bool) : tensor bool :=
  Tensor (shape a) (zip_with orb (data a) (data b)).

(** [torch.sum] of a boolean tensor: a zero-dimensional [int64] tensor, read
    here as the integer it holds. *)
Definition torch_sum (m : tensor bool) : Z :=
  foldr (fun (b : bool) acc => (if b then 1 else 0) + acc)%Z 0%Z (data m).

(** [m.type(torch.float)] *)
Definition type_float (m : tensor bool) : tensor float :=
  Tensor (shape m) ((fun b : bool => if b then 1%Qc else 0%Qc) <$> data m).

(** [.sum().item()] of a float tensor.  The code adds in [float32]; the
    tensor that it adds up here holds zeros and ones, and while it has at
    most 2^24 elements every partial sum is an integer that [float32]
    holds, so that the sum is the exact one, in whatever order it is
    taken. *)
Definition sum_item (t : tensor float) : float :=
  foldr Qcplus 0%Qc (data t).

(** ** Pixel accuracy *)

Definition pixel_accuracy (predict y_true : tensor Z) : result float :=
  if decide (shape predict = shape y_true) then
    let total := fold_left (fun total i => total * Z.of_nat i)%Z (shape predict) 1%Z in
    let correct := sum_item (type_float (eq_tensor predict y_true)) in
    truediv correct total
  else Raise AssertionError.

(** ** Arrays filled by a loop *)

(** [range(a, b)] *)
Definition range (a b : nat) : list nat := seq a (b - a).

(** [np.zeros(n)] and [np.zeros((n, m))] *)
Definition np_zeros (n : nat) : list float := replicate n 0%Qc.
Definition np_zeros2 (n m : nat) : list (list float) := replicate n (np_zeros m).

(** [np.mean(a)]: NaN on an empty array, written [None]. *)
Definition np_mean (a : list float) : option float :=
  match a with
  | [] => None
  | _ => Some (foldr Qcplus 0 a / of_int (Z.of_nat (length a)))%Qc
  end.

(** [np.sum(m, axis=0)] adds the rows of [m] up, entry by entry;
    [np.sum(m, axis=1)] adds the entries of each row up. *)
Definition np_sum_axis0 (m : list (list float)) : list float :=
  match m with
  | [] => []
  | r :: rs => fold_left (zip_with Qcplus) rs r
  end.

Definition np_sum_axis1 (m : list (list float)) : list float :=
  foldr Qcplus 0%Qc <$> m.

(** A [for] loop whose body may raise. *)
Fixpoint for_each {A S} (body : S -> A -> result S) (l : list A) (s : S) : result S :=
  match l with
  | [] => Ok s
  | a :: l => s' ← body s a; for_each body l s'
  end.

(** The default values of the [smooth] arguments. *)
Definition smooth_1e_6 : float := Q2Qc (1 # 1000000).
Definition smooth_1e_8 : float := Q2Qc (1 # 100000000).

(** ** Mean class accuracy *)

(** The quotients are taken in [float32] by the code, and read here as the
    rationals that they round. *)
Definition mean_accuracy (predict y_true : tensor Z) (classes : nat) (smooth : float)
  : option float :=
  let acc :=
    fold_left (fun acc i =>
        let c := Z.of_nat i in
        <[i := ((smooth + of_int (torch_sum (logical_and (eq_scalar predict c) (eq_scalar y_true c))))
                / (smooth + of_int (torch_sum (eq_scalar y_true c))))%Qc]> acc)
      (range 0 classes) (np_zeros classes) in
  np_mean acc.

(** ** Intersection over union, counted directly *)

(** The quotients are taken in [float32] by the code, and read here as the
    rationals that they round. *)
Definition iou (predict y_true : tensor Z) (classes : nat) (ignore_background : bool)
    (smooth : float) : list float :=
  let idx := if ignore_background then 1%nat else 0%nat in
  let iou :=
    fold_left (fun iou i =>
        let c := Z.of_nat i in
        let intersect := torch_sum (logical_and (eq_scalar predict c) (eq_scalar y_true c)) in
        let union := torch_sum (logical_or (eq_scalar predict c) (eq_scalar y_true c)) in
        <[i := ((of_int intersect + smooth) / (of_int union + smooth))%Qc]> iou)
      (range idx classes) (np_zeros classes) in
  drop idx iou.

(** ** Confusion matrix: rows are the ground truth, columns the prediction *)

Definition confusion_matrix (pred y_true : tensor Z) (classes : nat) : list (list float) :=
  fold_left (fun res i =>
      let classes_truth := eq_scalar y_true (Z.of_nat i) in
      fold_left (fun res j =>
          alter (fun row =>
              <[j := of_int (torch_sum (logical_and classes_truth (eq_scalar pred (Z.of_nat j))))]> row)
            i res)
        (range 0 classes) res)
    (range 0 classes) (np_zeros2 classes classes).

(** ** Precision and recall *)

(** The quotients are taken in [float64] by the code, and read here as the
    rationals that they round. *)
Definition precision_recall (confuse_matrix : list (list float)) (smooth : float)
  : result (list float * list float) :=
  let classes := length confuse_matrix in
  let matrix_row_sum := np_sum_axis0 confuse_matrix in
  let matrix_col_sum := np_sum_axis1 confuse_matrix in
  for_each (fun '(precision, recall) i =>
      m_ii ← subscript (confuse_matrix !! i ≫= (.!! i));
      row_sum_i ← subscript (matrix_row_sum !! i);
      col_sum_i ← subscript (matrix_col_sum !! i);
      Ok (<[i := ((m_ii + smooth) / (row_sum_i + smooth))%Qc]> precision,
          <[i := ((m_ii + smooth) / (col_sum_i + smooth))%Qc]> recall))
    (range 0 classes) (np_zeros classes, np_zeros classes).

(** ** Intersection over union, from the confusion matrix *)

Definition iou_confusion (predict y_true : tensor Z) (classes : nat)
    (ignore_background : bool) : result (list float) :=
  let confuse_matrix := confusion_matrix predict y_true classes in
  '(precision, recall) ← precision_recall confuse_matrix smooth_1e_6;
  let inv_precision := (fun p => 1 / p)%Qc <$> precision in
  let inv_recall := (fun r => 1 / r)%Qc <$> recall in
  let denominator := (fun x => x - 1)%Qc <$> zip_with Qcplus inv_precision inv_recall in
  let iou := (fun d => 1 / d)%Qc <$> denominator in
  Ok (if ignore_background then drop 1 iou else iou).

(** ** The colour table *)

Definition VOC_COLORMAP : list (list Z) :=
  [[0; 0; 0]; [128; 0; 0]; [0; 128; 0]; [128; 128; 0];
   [0; 0; 128]; [128; 0; 128]; [0; 128; 128]; [128; 128; 128];
   [64; 0; 0]; [192; 0; 0]; [64; 128; 0]; [192; 128; 0];
   [64; 0; 128]; [192; 0; 128]; [64; 128; 128]; [192; 128; 128];
   [0; 64; 0]; [128; 64; 0]; [0; 192; 0]; [128; 192; 0];
   [0; 64; 128]]%Z.

(** A one-dimensional [torch.long] tensor that starts as zeros: the cells
    that were written are kept in a finite map, every other cell holds 0. *)
Record long_tensor : Type := LongTensor {
  size : Z;
  cells : gmap Z Z
}.

Definition torch_zeros (n : Z) : long_tensor := LongTensor n ∅.

(** An index into a sequence of length [n]: negative indices count from the
    end, anything outside [-n, n) is an [IndexError]. *)
Definition normalize_index (n k : Z) : option Z :=
  if decide (0 ≤ k < n)%Z then Some k
  else if decide (- n ≤ k < 0)%Z then Some (k + n)%Z
  else None.

(** [t[k] = v] and [t[k]] *)
Definition setitem (t : long_tensor) (k v : Z) : result long_tensor :=
  k' ← subscript (normalize_index (size t) k);
  Ok (LongTensor (size t) (<[k' := v]> (cells t))).

Definition getitem (t : long_tensor) (k : Z) : result Z :=
  k' ← subscript (normalize_index (size t) k);
  Ok (default 0%Z (cells t !! k')).

(** [enumerate(l)] *)
Definition enumerate {A} (l : list A) : list (Z * A) :=
  zip (Z.of_nat <$> seq 0 (length l)) l.

(** The body of the loop of [voc_colormap2label]: one colour and its index. *)
Definition record_color (colormap2label : long_tensor) (item : Z * list Z)
  : result long_tensor :=
  let '(i, colormap) := item in
  c0 ← subscript (colormap !! 0%nat);
  c1 ← subscript (colormap !! 1%nat);
  c2 ← subscript (colormap !! 2%nat);
  setitem colormap2label ((c0 * 256 + c1) * 256 + c2)%Z i.

Definition voc_colormap2label : result long_tensor :=
  let colormap2label := torch_zeros (256 ^ 3) in
  for_each record_color (enumerate VOC_COLORMAP) colormap2label.

(** ** Images and label decoding *)

Record array3 (A : Type) : Type := Array3 {
  dim0 : nat;
  dim1 : nat;
  dim2 : nat;
  at3 : nat -> nat -> nat -> A
}.
Arguments Array3 {A} dim0 dim1 dim2 at3.
Arguments dim0 {A} a.
Arguments dim1 {A} a.
Arguments dim2 {A} a.
Arguments at3 {A} a i j k.

Record array2 (A : Type) : Type := Array2 {
  rows : nat;
  cols : nat;
  at2 : nat -> nat -> A
}.
Arguments Array2 {A} rows cols at2.
Arguments rows {A} a.
Arguments cols {A} a.
Arguments at2 {A} a i j.

(** What [torchvision.io.read_image] returns: a [uint8] tensor of shape
    (channels, height, width). *)
Definition image : Type := array3 byte.

(** The value of an unsigned byte. *)
Definition byte_val (b : byte) : Z := Z.of_N (Byte.to_N b).
Arguments byte_val : simpl never.

(** [a.permute(1, 2, 0)] *)
Definition permute_1_2_0 {A} (a : array3 A) : array3 A :=
  Array3 (dim1 a) (dim2 a) (dim0 a) (fun h w c => at3 a c h w).

(** [a.numpy().astype('int32')] on a [uint8] tensor. *)
Definition astype_int32 (a : array3 byte) : array3 Z :=
  Array3 (dim0 a) (dim1 a) (dim2 a) (fun i j k => byte_val (at3 a i j k)).

(** [a[:, :, k]] *)
Definition select_last {A} (a : array3 A) (k : nat) : result (array2 A) :=
  if decide (k < dim2 a)%nat
  then Ok (Array2 (dim0 a) (dim1 a) (fun h w => at3 a h w k))
  else Raise IndexError.

(** Arithmetic of [int32] arrays wraps around. *)
Definition wrap32 (z : Z) : Z := ((z + 2 ^ 31) mod 2 ^ 32 - 2 ^ 31)%Z.
Arguments wrap32 : simpl never.

Definition mul32 (a : array2 Z) (k : Z) : array2 Z :=
  Array2 (rows a) (cols a) (fun h w => wrap32 (at2 a h w * k)).

Definition add32 (a b : array2 Z) : array2 Z :=
  Array2 (rows a) (cols a) (fun h w => wrap32 (at2 a h w + at2 b h w)).

(** Does [p] hold of every index below [n], of every element of [a]? *)
Definition all_below (n : nat) (p : nat -> bool) : bool := forallb p (seq 0 n).

Definition all2 {A} (p : A -> bool) (a : array2 A) : bool :=
  all_below (rows a) (fun h => all_below (cols a) (fun w => p (at2 a h w))).

(** [t[idx]] for an array of indices. *)
Definition index_long (t : long_tensor) (idx : array2 Z) : result (array2 Z) :=
  if all2 (fun k => bool_decide (is_Some (normalize_index (size t) k))) idx
  then Ok (Array2 (rows idx) (cols idx)
             (fun h w => default 0%Z (k ← normalize_index (size t) (at2 idx h w);
                                        Some (default 0%Z (cells t !! k)))))
  else Raise IndexError.

Definition voc_label_indices (colormap : image) (colormap2label : long_tensor)
  : result (array2 Z) :=
  let colormap := astype_int32 (permute_1_2_0 colormap) in
  c0 ← select_last colormap 0;
  c1 ← select_last colormap 1;
  c2 ← select_last colormap 2;
  let idx := add32 (mul32 (add32 (mul32 c0 256) c1) 256) c2 in
  index_long colormap2label idx.

(** [colormap[X, :]] with [colormap = torch.tensor(VOC_COLORMAP)]: one row of
    the table for every entry of [X].  The [device] argument only says where
    the table is stored, and [pred.long()] leaves integers as they are. *)
Definition label2image (pred : array2 Z) : result (array3 Z) :=
  let colormap := VOC_COLORMAP in
  let n := Z.of_nat (length colormap) in
  let X := pred in
  if all2 (fun k => bool_decide (is_Some (normalize_index n k))) X
  then Ok (Array3 (rows X) (cols X) 3
             (fun h w c => default 0%Z (k ← normalize_index n (at2 X h w);
                                          row ← colormap !! Z.to_nat k;
                                          row !! c)))
  else Raise IndexError.

(** ** The dataset *)

(** The part of the dataset directory that [read_voc_images] reads: for each
    split, in the order of the names of its manifest, the decoded photo
    ([JPEGImages/name.jpg]) and the decoded mask
    ([SegmentationClass/name.png]). *)
Record voc_directory : Type := VocDirectory {
  train_txt : list (image * image);
  val_txt : list (image * image)
}.

Definition read_voc_images (voc_dir : voc_directory) (is_train : bool)
  : list image * list image :=
  let images := if is_train then train_txt voc_dir else val_txt voc_dir in
  fold_left (fun '(features, labels) fname =>
      (features ++ [fname.1], labels ++ [fname.2]))
    images ([], []).

Module VOCSegDataset.
Section dataset.

(** [torchvision.transforms.Normalize(mean, std)], a collaborator from
    outside the repository. *)
Variable transform : array3 float -> array3 float.

Record t : Type := Make {
  crop_size : nat * nat;
  features : list (array3 float);
  labels : list image;
  colormap2label : long_tensor
}.

(** [img.float() / 255] *)
Definition float_div_255 (img : image) : array3 float :=
  Array3 (dim0 img) (dim1 img) (dim2 img)
    (fun c h w => (of_int (byte_val (at3 img c h w)) / of_int 255)%Qc).

Definition normalize_image (img : image) : array3 float :=
  transform (float_div_255 img).

Definition filter (crop_size : nat * nat) (imgs : list image) : list image :=
  base.filter (fun img => crop_size.1 ≤ dim1 img ∧ crop_size.2 ≤ dim2 img) imgs.

Definition init (is_train : bool) (crop_size : nat * nat) (voc_dir : voc_directory)
  : result t :=
  let '(features, labels) := read_voc_images voc_dir is_train in
  let features := normalize_image <$> filter crop_size features in
  let labels := filter crop_size labels in
  colormap2label ← voc_colormap2label;
  Ok (Make crop_size features labels colormap2label).

End dataset.
End VOCSegDataset.

(** ** Vocabulary of the specification *)

(** The number of pixels that satisfy [P]; a pixel is the pair of its
    predicted class and its true class. *)
Definition count_pixels (P : Z * Z -> Prop) `{!∀ px, Decision (P px)}
    (pred y_true : tensor Z) : Z :=
  Z.of_nat (length (base.filter P (zip (data pred) (data y_true)))).

(** The number of elements of [t] that are the class [c]. *)
Definition count_class (t : tensor Z) (c : Z) : Z :=
  Z.of_nat (length (base.filter (fun v => v = c) (data t))).

(** The number of elements of a class-index tensor. *)
Definition pixel_count (t : tensor Z) : Z := Z.of_nat (length (data t)).

(** Every value of [t] is a class index below [classes]. *)
Definition in_range (classes : nat) (t : tensor Z) : Prop :=
  Forall (fun v => 0 ≤ v < Z.of_nat classes)%Z (data t).

#[export] Instance in_range_dec classes t : Decision (in_range classes t).
Proof. unfold in_range. apply _. Defined.

(** The shapes of at most 2^24 elements: a [float32] sum of zeros and ones
    over such a tensor is exact. *)
Definition float32_exact (s : list nat) : Prop := (Z.of_nat (numel s) ≤ 2 ^ 24)%Z.

#[export] Instance float32_exact_dec s : Decision (float32_exact s).
Proof. unfold float32_exact. apply _. Defined.

(** [sum_below n f] is [f 0 + ... + f (n - 1)]. *)
Definition sum_below (n : nat) (f : nat -> float) : float :=
  foldr (fun i acc => f i + acc)%Qc 0%Qc (seq 0 n).

(** The entry of a matrix, its row and column totals and its grand total. *)
Definition entry (m : list (list float)) (i j : nat) : float :=
  default 0%Qc (m !! i ≫= (.!! j)).

Definition row_total (n : nat) (m : list (list float)) (i : nat) : float :=
  sum_below n (fun j => entry m i j).

Definition col_total (n : nat) (m : list (list float)) (j : nat) : float :=
  sum_below n (fun i => entry m i j).

Definition grand_total (n : nat) (m : list (list float)) : float :=
  sum_below n (fun i => row_total n m i).

(** An [n] by [n] matrix. *)
Definition square (n : nat) (m : list (list float)) : Prop :=
  length m = n ∧ Forall (fun row => length row = n) m.

#[export] Instance square_dec n m : Decision (square n m).
Proof. unfold square. apply _. Defined.

(** The arithmetic mean of a family indexed by the classes below [n];
    there is none over no class. *)
Definition arithmetic_mean (n : nat) (f : nat -> float) : option float :=
  match n with
  | O => None
  | _ => Some (sum_below n f / of_int (Z.of_nat n))%Qc
  end.

(** The code of a colour. *)
Definition encode (r g b : Z) : Z := ((r * 256 + g) * 256 + b)%Z.

(** The colour of the pixel at row [h] and column [w] of an image. *)
Definition pixel_color (img : image) (h w : nat) : list Z :=
  [byte_val (at3 img 0 h w); byte_val (at3 img 1 h w); byte_val (at3 img 2 h w)].

(** A row of the colour table is a colour: three values of a byte. *)
Definition is_color (c : list Z) : Prop :=
  length c = 3%nat ∧ Forall (fun v => 0 ≤ v < 256)%Z c.

(** The code of a row of the colour table. *)
Definition color_code (c : list Z) : Z :=
  encode (default 0%Z (c !! 0%nat)) (default 0%Z (c !! 1%nat)) (default 0%Z (c !! 2%nat)).

(** ** One-hot encoding *)

(** [torch.eye(n)] *)
Definition torch_eye (n : nat) : list (list float) :=
  (fun i => (fun j => if decide (i = j) then 1%Qc else 0%Qc) <$> seq 0 n) <$> seq 0 n.

(** [a[x]] for a matrix [a] and a tensor [x] of row indices: one row of [a]
    for every element of [x], along a new last dimension of size [width]. *)
Definition index_rows (a : list (list float)) (width : nat) (x : tensor Z)
  : result (tensor float) :=
  rows ← for_each (fun rows k =>
      k' ← subscript (normalize_index (Z.of_nat (length a)) k);
      row ← subscript (a !! Z.to_nat k');
      Ok (rows ++ [row]))
    (data x) [];
  Ok (Tensor (shape x ++ [width]) (concat rows)).

Definition one_hot (x : tensor Z) (classes : nat) : result (tensor float) :=
  let a := torch_eye classes in
  index_rows a classes x.

(** ** The evaluation loop *)

Section evaluation.
Context {X P : Type}.

(** The collaborators of [test]: the model, the loss function followed by
    [.sum().item()], and [torch.argmax(pred, 1)]. *)
Variable model : X -> P.
Variable loss_fn : P -> tensor Z -> float.
Variable argmax1 : P -> tensor Z.

(** One turn of the loop of [test] on the sums of the loss, of the pixel
    accuracy and of the mean accuracy; a NaN mean accuracy stays NaN. *)
Definition test_batch (sums : float * float * option float) (batch : X * tensor Z)
  : result (float * float * option float) :=
  let '(test_loss, pixel_acc, mean_acc) := sums in
  let '(x, y) := batch in
  let pred := model x in
  let test_loss := (test_loss + loss_fn pred y)%Qc in
  let pred := argmax1 pred in
  acc ← pixel_accuracy pred y;
  let pixel_acc := (pixel_acc + acc)%Qc in
  let mean_acc :=
    m ← mean_acc; a ← mean_accuracy pred y 21 smooth_1e_8; Some (m + a)%Qc in
  Ok (test_loss, pixel_acc, mean_acc).

(** The three divisions that follow the loop. *)
Definition test_averages (num_batches : Z) (sums : float * float * option float)
  : result (float * option float * float) :=
  let '(test_loss, pixel_acc, mean_acc) := sums in
  test_loss ← truediv test_loss num_batches;
  pixel_acc ← truediv pixel_acc num_batches;
  let mean_acc := (fun m => m / of_int num_batches)%Qc <$> mean_acc in
  Ok (pixel_acc, mean_acc, test_loss).

(** [test] prints three averages over the batches: they are returned here,
    as (pixel accuracy, mean accuracy, loss), before their formatting. *)
Definition test (dataloader : list (X * tensor Z)) : result (float * option float * float) :=
  let num_batches := Z.of_nat (length dataloader) in
  sums ← for_each test_batch dataloader (0%Qc, 0%Qc, Some 0%Qc);
  test_averages num_batches sums.

End evaluation.

(** [len(dataset)] *)
Definition VOCSegDataset_len (ds : VOCSegDataset.t) : nat :=
  length (VOCSegDataset.features ds).

(** * Properties *)

(** ** Loops that fill an array *)

Section loops.
Context {A : Type}.

(** Altering the cells [a, a + k) one after the other, when each still
    holds [z], leaves [F i z] in cell [i] and the other cells alone. *)
Lemma alter_loop (F : nat -> A -> A) (z : A) (k a : nat) (l : list A) :
  (a + k ≤ length l)%nat ->
  (∀ i, (a ≤ i < a + k)%nat -> l !! i = Some z) ->
  fold_left (fun acc i => alter (F i) i acc) (seq a k) l
  = take a l ++ ((fun i => F i z) <$> seq a k) ++ drop (a + k) l.
Proof.
  revert a l. induction k as [|k IH]; intros a l Hlen Hz; simpl.
  - by rewrite Nat.add_0_r, take_drop.
  - rewrite IH.
    + assert (l !! a = Some z) as Ha by (apply Hz; lia).
      rewrite (take_S_r _ a (F a z)).
      2:{ by rewrite list_lookup_alter_eq, Ha. }
      rewrite take_alter_ge by lia.
      rewrite drop_alter_lt by lia.
      rewrite <- (assoc_L (++)). simpl.
      replace (S (a + k)) with (a + S k)%nat by lia. done.
    + rewrite length_alter. lia.
    + intros i Hi. rewrite list_lookup_alter_ne by lia. apply Hz. lia.
Qed.

Lemma fold_left_ext {S B} (f g : S -> B -> S) (l : list B) (a : S) :
  (∀ a b, f a b = g a b) -> fold_left f l a = fold_left g l a.
Proof.
  intros Hfg. revert a. induction l as [|b l IH]; intros a; simpl; [done|].
  by rewrite Hfg, IH.
Qed.

Lemma insert_as_alter (x : A) (i : nat) (l : list A) :
  <[i := x]> l = alter (fun _ => x) i l.
Proof.
  revert i. induction l as [|y l IH]; intros [|i]; simpl; try done.
  f_equal. apply IH.
Qed.

(** The loop [for i in range(a, a + k): l[i] = f(i)]. *)
Lemma insert_loop (f : nat -> A) (z : A) (k a n : nat) :
  (a + k ≤ n)%nat ->
  fold_left (fun acc i => <[i := f i]> acc) (seq a k) (replicate n z)
  = replicate a z ++ (f <$> seq a k) ++ replicate (n - (a + k)) z.
Proof.
  intros Hlen.
  rewrite (fold_left_ext _ (fun acc i => alter (fun _ => f i) i acc))
    by (intros; apply insert_as_alter).
  rewrite (alter_loop (fun i _ => f i) z).
  - rewrite take_replicate, drop_replicate.
    by replace (a `min` n)%nat with a by lia.
  - by rewrite length_replicate.
  - intros i Hi. apply lookup_replicate_2. lia.
Qed.

Lemma insert_loop_full (f : nat -> A) (z : A) (n : nat) :
  fold_left (fun acc i => <[i := f i]> acc) (range 0 n) (replicate n z)
  = f <$> seq 0 n.
Proof.
  unfold range. rewrite Nat.sub_0_r, insert_loop by lia.
  simpl. by rewrite Nat.sub_diag, app_nil_r.
Qed.

(** A loop that writes row [i], cell by cell, alters row [i] once. *)
Lemma alter_row_loop (g : nat -> A) (i : nat) (js : list nat) (res : list (list A)) :
  fold_left (fun res j => alter (fun row => <[j := g j]> row) i res) js res
  = alter (fun row => fold_left (fun row j => <[j := g j]> row) js row) i res.
Proof.
  revert res. induction js as [|j js IH]; intros res; simpl.
  - by rewrite list_alter_id.
  - rewrite IH, list_alter_alter_eq. done.
Qed.

(** The body of a loop that never raises. *)
Lemma for_each_ok {S B} (body : S -> B -> result S) (g : S -> B -> S)
    (l : list B) (s : S) :
  (∀ s b, b ∈ l -> body s b = Ok (g s b)) ->
  for_each body l s = Ok (fold_left g l s).
Proof.
  revert s. induction l as [|b l IH]; intros s Hbody; simpl; [done|].
  rewrite Hbody by left. simpl. apply IH.
  intros s' b' Hb'. apply Hbody. by right.
Qed.

(** Two arrays filled by one loop. *)
Lemma fold_left_pair {B C} (f : B -> nat -> B) (g : C -> nat -> C)
    (l : list nat) (b : B) (c : C) :
  fold_left (fun '(x, y) i => (f x i, g y i)) l (b, c)
  = (fold_left f l b, fold_left g l c).
Proof. revert b c. induction l as [|i l IH]; intros b c; simpl; [done|]. apply IH. Qed.
End loops.

(** ** Counting pixels *)

Section counting.
Context {A : Type}.
Implicit Types (P Q : A -> Prop) (l : list A).

Lemma filter_length_ext P Q `{!∀ x, Decision (P x)} `{!∀ x, Decision (Q x)} l :
  (∀ x, x ∈ l -> P x <-> Q x) ->
  length (filter P l) = length (filter Q l).
Proof.
  induction l as [|x l IH]; intros HPQ; [done|].
  rewrite !filter_cons.
  assert (P x <-> Q x) as Hx by (apply HPQ; left).
  assert (length (filter P l) = length (filter Q l)) as Hl.
  { apply IH. intros y Hy. apply HPQ. by right. }
  repeat case_decide; simpl; try tauto; lia.
Qed.

Lemma filter_length_or_and P Q `{!∀ x, Decision (P x)} `{!∀ x, Decision (Q x)} l :
  (length (filter (fun x => P x ∨ Q x) l) + length (filter (fun x => P x ∧ Q x) l)
   = length (filter P l) + length (filter Q l))%nat.
Proof.
  induction l as [|x l IH]; [done|].
  rewrite !filter_cons.
  repeat case_decide; simpl; try tauto; lia.
Qed.

Lemma filter_length_none P `{!∀ x, Decision (P x)} l :
  (∀ x, x ∈ l -> ¬ P x) -> length (filter P l) = 0%nat.
Proof.
  induction l as [|x l IH]; intros HP; [done|].
  rewrite filter_cons, decide_False by (apply HP; left).
  apply IH. intros y Hy. apply HP. by right.
Qed.

Lemma filter_length_le P `{!∀ x, Decision (P x)} l :
  (length (filter P l) ≤ length l)%nat.
Proof.
  induction l as [|x l IH]; [done|].
  rewrite filter_cons. case_decide; simpl; lia.
Qed.

Lemma filter_length_all P `{!∀ x, Decision (P x)} l :
  length (filter P l) = length l <-> Forall P l.
Proof.
  induction l as [|x l IH]; [by split; [constructor|]|].
  pose proof (filter_length_le P l) as Hle.
  rewrite filter_cons. split.
  - intros Hlen. case_decide; simpl in Hlen; [|lia].
    constructor; [done|]. apply IH. lia.
  - intros Hall. inversion Hall as [|? ? Hx Hall']; subst.
    rewrite decide_True by done. simpl. f_equal. by apply IH.
Qed.

(** Summing the bits of a mask counts the elements the mask selects. *)
Lemma foldr_bits_count (h : A -> bool) P `{!∀ x, Decision (P x)} l :
  (∀ x, P x <-> h x = true) ->
  foldr (fun (b : bool) acc => (if b then 1 else 0) + acc)%Z 0%Z (h <$> l)
  = Z.of_nat (length (filter P l)).
Proof.
  intros Hh. induction l as [|x l IH]; [done|].
  rewrite filter_cons, fmap_cons. cbn [foldr]. rewrite IH.
  case_decide as HP; rewrite Hh in HP.
  - rewrite HP. cbn [length]. lia.
  - destruct (h x); [done|]. lia.
Qed.
End counting.

Section count_pixels.
Implicit Types (P Q : Z * Z -> Prop) (pred y_true : tensor Z).

Lemma count_pixels_ext P Q `{!∀ px, Decision (P px)} `{!∀ px, Decision (Q px)}
    pred y_true :
  (∀ px, px ∈ zip (data pred) (data y_true) -> P px <-> Q px) ->
  count_pixels P pred y_true = count_pixels Q pred y_true.
Proof.
  intros HPQ. unfold count_pixels. f_equal. by apply filter_length_ext.
Qed.

Lemma count_pixels_or_and P Q `{!∀ px, Decision (P px)} `{!∀ px, Decision (Q px)}
    pred y_true :
  (count_pixels (fun px => P px ∨ Q px) pred y_true
   + count_pixels (fun px => P px ∧ Q px) pred y_true
   = count_pixels P pred y_true + count_pixels Q pred y_true)%Z.
Proof.
  unfold count_pixels.
  pose proof (filter_length_or_and P Q (zip (data pred) (data y_true))) as Hsum.
  lia.
Qed.

Lemma count_pixels_nonneg P `{!∀ px, Decision (P px)} pred y_true :
  (0 ≤ count_pixels P pred y_true)%Z.
Proof. unfold count_pixels. lia. Qed.

Lemma count_pixels_none P `{!∀ px, Decision (P px)} pred y_true :
  (∀ px, px ∈ zip (data pred) (data y_true) -> ¬ P px) ->
  count_pixels P pred y_true = 0%Z.
Proof.
  intros HP. unfold count_pixels. by rewrite filter_length_none.
Qed.

Lemma count_pixels_all pred y_true :
  count_pixels (fun _ => True) pred y_true
  = Z.of_nat (length (zip (data pred) (data y_true))).
Proof.
  unfold count_pixels. f_equal.
  apply filter_length_all, Forall_forall. done.
Qed.

(** A mask built from both tensors counts the pixels that it selects. *)
Lemma torch_sum_mask (h : Z -> Z -> bool) P `{!∀ px, Decision (P px)}
    (s : list nat) pred y_true :
  (∀ p t, P (p, t) <-> h p t = true) ->
  torch_sum (Tensor s (zip_with h (data pred) (data y_true)))
  = count_pixels P pred y_true.
Proof.
  intros Hh. unfold torch_sum, count_pixels. simpl.
  rewrite zip_with_zip.
  apply (foldr_bits_count (uncurry h) P).
  intros [p t]. apply Hh.
Qed.
End count_pixels.

(** ** The masks of the metrics *)

Section masks.
Implicit Types (pred y_true : tensor Z) (i j : Z).

Lemma same_length {A B} (a : tensor A) (b : tensor B) :
  shape a = shape b -> well_formed a -> well_formed b ->
  length (data a) = length (data b).
Proof. unfold well_formed. intros -> -> ->. done. Qed.

Lemma sum_pred_and_truth pred y_true i j :
  torch_sum (logical_and (eq_scalar pred i) (eq_scalar y_true j))
  = count_pixels (fun px => px.1 = i ∧ px.2 = j) pred y_true.
Proof.
  unfold logical_and, eq_scalar. simpl.
  rewrite zip_with_fmap_l, zip_with_fmap_r.
  apply (torch_sum_mask (fun p t => (p =? i)%Z && (t =? j)%Z)).
  intros p t. simpl. rewrite andb_true_iff, !Z.eqb_eq. done.
Qed.

Lemma sum_truth_and_pred pred y_true i j :
  torch_sum (logical_and (eq_scalar y_true i) (eq_scalar pred j))
  = count_pixels (fun px => px.2 = i ∧ px.1 = j) pred y_true.
Proof.
  unfold logical_and, eq_scalar. simpl.
  rewrite zip_with_fmap_l, zip_with_fmap_r, <- zip_with_flip.
  apply (torch_sum_mask (fun p t => (t =? i)%Z && (p =? j)%Z)).
  intros p t. simpl. rewrite andb_true_iff, !Z.eqb_eq. done.
Qed.

Lemma sum_pred_or_truth pred y_true i j :
  torch_sum (logical_or (eq_scalar pred i) (eq_scalar y_true j))
  = count_pixels (fun px => px.1 = i ∨ px.2 = j) pred y_true.
Proof.
  unfold logical_or, eq_scalar. simpl.
  rewrite zip_with_fmap_l, zip_with_fmap_r.
  apply (torch_sum_mask (fun p t => (p =? i)%Z || (t =? j)%Z)).
  intros p t. simpl. rewrite orb_true_iff, !Z.eqb_eq. done.
Qed.

Lemma sum_truth pred y_true i :
  length (data pred) = length (data y_true) ->
  torch_sum (eq_scalar y_true i) = count_pixels (fun px => px.2 = i) pred y_true.
Proof.
  intros Hlen. unfold torch_sum, count_pixels, eq_scalar. simpl.
  rewrite <- (snd_zip (data pred) (data y_true)) at 1 by lia.
  rewrite <- list_fmap_compose.
  apply (foldr_bits_count _ (fun px : Z * Z => px.2 = i)).
  intros [p t]. simpl. by rewrite Z.eqb_eq.
Qed.
End masks.

(** ** Sums of counts *)

Section sums.
Local Open Scope Qc_scope.

Lemma foldr_sum_acc {A} (f : A -> float) (a : float) (l : list A) :
  foldr (fun i acc => f i + acc) a l = foldr (fun i acc => f i + acc) 0 l + a.
Proof.
  induction l as [|x l IH]; simpl.
  - by rewrite Qcplus_0_l.
  - rewrite IH. ring.
Qed.

Lemma sum_below_S (n : nat) (f : nat -> float) :
  sum_below (S n) f = sum_below n f + f n.
Proof.
  unfold sum_below. rewrite seq_S, foldr_app. simpl.
  rewrite foldr_sum_acc. ring.
Qed.

Lemma sum_below_ext (n : nat) (f g : nat -> float) :
  (∀ i, (i < n)%nat -> f i = g i) -> sum_below n f = sum_below n g.
Proof.
  induction n as [|n IH]; intros Hfg; [done|].
  rewrite !sum_below_S, IH, Hfg by (intros; try apply Hfg; lia). done.
Qed.

Lemma sum_below_fmap (n : nat) (f : nat -> float) :
  foldr Qcplus 0 (f <$> seq 0 n) = sum_below n f.
Proof. unfold sum_below. by rewrite foldr_fmap. Qed.

(** Adding the counts of the pixels at which a selector [sel] takes each
    value below [n] counts the pixels at which it is below [n]. *)
Lemma sum_below_count (R : Z * Z -> Prop) `{!∀ px, Decision (R px)}
    (sel : Z * Z -> Z) (pred y_true : tensor Z) (n : nat) :
  sum_below n (fun k =>
    of_int (count_pixels (fun px => R px ∧ sel px = Z.of_nat k) pred y_true))
  = of_int (count_pixels (fun px => R px ∧ (0 ≤ sel px < Z.of_nat n)%Z) pred y_true).
Proof.
  induction n as [|n IH].
  - rewrite count_pixels_none by (intros px _ [_ ?]; lia).
    unfold of_int. by rewrite Z2Qc_inj_0.
  - rewrite sum_below_S, IH. unfold of_int. rewrite <- Z2Qc_inj_add. f_equal.
    pose proof (count_pixels_or_and
      (fun px => R px ∧ (0 ≤ sel px < Z.of_nat n)%Z)
      (fun px => R px ∧ sel px = Z.of_nat n) pred y_true) as Hsplit.
    rewrite (count_pixels_none (fun px => _ ∧ _)) in Hsplit
      by (intros px _ [[_ ?] [_ ?]]; lia).
    rewrite Z.add_0_r in Hsplit. rewrite <- Hsplit.
    apply count_pixels_ext. intros px _. split.
    + intros [[? ?]|[? ?]]; split; (done || lia).
    + intros [? ?].
      destruct (decide (sel px = Z.of_nat n)); [right|left]; split; (done || lia).
Qed.
End sums.

(** ** The confusion matrix *)

Section confusion.
Local Open Scope Qc_scope.
Implicit Types (pred y_true : tensor Z) (classes : nat).

(** The nested loops leave in cell (i, j) the number of pixels of true
    class [i] and predicted class [j]. *)
Lemma confusion_matrix_cells pred y_true classes :
  confusion_matrix pred y_true classes
  = (fun i => (fun j =>
       of_int (count_pixels (fun px => px.2 = Z.of_nat i ∧ px.1 = Z.of_nat j)
                 pred y_true)) <$> seq 0 classes) <$> seq 0 classes.
Proof.
  unfold confusion_matrix, np_zeros2, range. rewrite Nat.sub_0_r.
  erewrite fold_left_ext by (intros; apply alter_row_loop).
  rewrite (alter_loop _ (np_zeros classes)).
  - rewrite take_0, drop_ge by (rewrite length_replicate; lia).
    rewrite app_nil_r. simpl. apply list_fmap_ext. intros _ i _.
    pose proof (insert_loop_full
      (fun j => of_int (torch_sum (logical_and (eq_scalar y_true (Z.of_nat i))
                                     (eq_scalar pred (Z.of_nat j)))))
      0 classes) as Hrow.
    unfold range in Hrow. rewrite Nat.sub_0_r in Hrow.
    unfold np_zeros. rewrite Hrow.
    apply list_fmap_ext. intros _ j _. by rewrite sum_truth_and_pred.
  - rewrite length_replicate. lia.
  - intros i Hi. apply lookup_replicate_2. lia.
Qed.

Lemma confusion_matrix_entry pred y_true classes (i j : nat) :
  (i < classes)%nat -> (j < classes)%nat ->
  entry (confusion_matrix pred y_true classes) i j
  = of_int (count_pixels (fun px => px.2 = Z.of_nat i ∧ px.1 = Z.of_nat j)
              pred y_true).
Proof.
  intros Hi Hj. unfold entry. rewrite confusion_matrix_cells.
  rewrite list_lookup_fmap, lookup_seq_lt by done. simpl.
  rewrite list_lookup_fmap, lookup_seq_lt by done. done.
Qed.

Lemma confusion_matrix_square pred y_true classes :
  square classes (confusion_matrix pred y_true classes).
Proof.
  rewrite confusion_matrix_cells. split.
  - by rewrite length_fmap, length_seq.
  - apply Forall_fmap, Forall_forall. intros i _. simpl.
    by rewrite length_fmap, length_seq.
Qed.

(** Row [i] adds up to the pixels of true class [i] whose prediction is a
    class; column [j] to the pixels predicted [j] whose truth is a class. *)
Lemma confusion_matrix_row_total pred y_true classes (i : nat) :
  (i < classes)%nat ->
  row_total classes (confusion_matrix pred y_true classes) i
  = of_int (count_pixels
      (fun px => px.2 = Z.of_nat i ∧ (0 ≤ px.1 < Z.of_nat classes)%Z) pred y_true).
Proof.
  intros Hi. unfold row_total.
  rewrite <- (sum_below_count (fun px => px.2 = Z.of_nat i) fst).
  apply sum_below_ext. intros j Hj. by apply confusion_matrix_entry.
Qed.

Lemma confusion_matrix_col_total pred y_true classes (j : nat) :
  (j < classes)%nat ->
  col_total classes (confusion_matrix pred y_true classes) j
  = of_int (count_pixels
      (fun px => px.1 = Z.of_nat j ∧ (0 ≤ px.2 < Z.of_nat classes)%Z) pred y_true).
Proof.
  intros Hj. unfold col_total.
  rewrite <- (sum_below_count (fun px => px.1 = Z.of_nat j) snd).
  apply sum_below_ext. intros i Hi. rewrite confusion_matrix_entry by done.
  f_equal. apply count_pixels_ext. intros px _. tauto.
Qed.

Lemma confusion_matrix_grand_total pred y_true classes :
  grand_total classes (confusion_matrix pred y_true classes)
  = of_int (count_pixels
      (fun px => (0 ≤ px.1 < Z.of_nat classes)%Z ∧ (0 ≤ px.2 < Z.of_nat classes)%Z)
      pred y_true).
Proof.
  unfold grand_total.
  rewrite <- (sum_below_count (fun px => (0 ≤ px.1 < Z.of_nat classes)%Z) snd).
  apply sum_below_ext. intros i Hi. rewrite confusion_matrix_row_total by done.
  f_equal. apply count_pixels_ext. intros px _. tauto.
Qed.

(** What "every value is a class index" says of the pixels. *)
Lemma in_range_pixels pred y_true classes px :
  in_range classes pred -> in_range classes y_true ->
  px ∈ zip (data pred) (data y_true) ->
  (0 ≤ px.1 < Z.of_nat classes)%Z ∧ (0 ≤ px.2 < Z.of_nat classes)%Z.
Proof.
  unfold in_range. rewrite !Forall_forall. intros Hp Ht Hpx.
  destruct px as [p t]. apply elem_of_zip_l in Hpx as Hl.
  apply elem_of_zip_r in Hpx as Hr. simpl in *.
  apply list_elem_of_In in Hl, Hr. split; [by apply Hp|by apply Ht].
Qed.
End confusion.

Section totals.
Local Open Scope Qc_scope.
Implicit Types (pred y_true : tensor Z) (classes : nat).

Lemma filter_zip_fst {A B} (P : A -> Prop) `{!∀ x, Decision (P x)}
    `{!∀ px : A * B, Decision (P px.1)} (l : list A) (k : list B) :
  length l = length k ->
  length (filter (fun px => P px.1) (zip l k)) = length (filter P l).
Proof.
  revert k. induction l as [|x l IH]; intros [|y k] Hlen; try done.
  simpl zip. rewrite !filter_cons. simpl.
  specialize (IH k ltac:(simpl in Hlen; lia)).
  repeat case_decide; simpl; try tauto; lia.
Qed.

Lemma filter_zip_snd {A B} (P : B -> Prop) `{!∀ x, Decision (P x)}
    `{!∀ px : A * B, Decision (P px.2)} (l : list A) (k : list B) :
  length l = length k ->
  length (filter (fun px => P px.2) (zip l k)) = length (filter P k).
Proof.
  revert k. induction l as [|x l IH]; intros [|y k] Hlen; try done.
  simpl zip. rewrite !filter_cons. simpl.
  specialize (IH k ltac:(simpl in Hlen; lia)).
  repeat case_decide; simpl; try tauto; lia.
Qed.

Lemma count_pixels_truth pred y_true (c : Z) :
  length (data pred) = length (data y_true) ->
  count_pixels (fun px => px.2 = c) pred y_true = count_class y_true c.
Proof.
  intros Hlen. unfold count_pixels, count_class. f_equal.
  by apply (filter_zip_snd (fun v => v = c)).
Qed.

Lemma count_pixels_pred pred y_true (c : Z) :
  length (data pred) = length (data y_true) ->
  count_pixels (fun px => px.1 = c) pred y_true = count_class pred c.
Proof.
  intros Hlen. unfold count_pixels, count_class. f_equal.
  by apply (filter_zip_fst (fun v => v = c)).
Qed.

Lemma Forall_zip_both {A B} (P : A -> Prop) (Q : B -> Prop) (l : list A) (k : list B) :
  length l = length k ->
  Forall (fun px => P px.1 ∧ Q px.2) (zip l k) -> Forall P l ∧ Forall Q k.
Proof.
  revert k. induction l as [|x l IH]; intros [|y k] Hlen Hall; try done.
  simpl in Hall. inversion Hall as [|? ? [Hx Hy] Hrest]; subst.
  destruct (IH k) as [Hl Hk]; [simpl in Hlen; lia|done|].
  split; by constructor.
Qed.
End totals.

(** The worked example of the specification: three classes, six pixels. *)
Example confusion_matrix_example :
  confusion_matrix (Tensor [6%nat] [0; 1; 1; 1; 2; 0]%Z) (Tensor [6%nat] [0; 0; 1; 1; 2; 2]%Z) 3
  = [[of_int 1; of_int 1; of_int 0];
     [of_int 0; of_int 2; of_int 0];
     [of_int 1; of_int 0; of_int 1]].
Proof. vm_compute. reflexivity. Qed.

(** C3: when every value of [pred] and of [y_true] is a class index below
    [classes], row [i] of the confusion matrix adds up to the number of pixels
    whose ground truth is class [i], column [j] adds up to the number of pixels
    predicted as class [j], and all the entries add up to the number of
    pixels. *)
Theorem confusion_matrix_totals (pred y_true : tensor Z) (classes : nat) :
  shape pred = shape y_true -> well_formed pred -> well_formed y_true ->
  in_range classes pred -> in_range classes y_true ->
  let m := confusion_matrix pred y_true classes in
  (∀ i, (i < classes)%nat ->
     row_total classes m i = of_int (count_class y_true (Z.of_nat i)))
  ∧ (∀ j, (j < classes)%nat ->
     col_total classes m j = of_int (count_class pred (Z.of_nat j)))
  ∧ grand_total classes m = of_int (pixel_count pred)
  ∧ pixel_count pred = pixel_count y_true.
Proof.
  intros Hshape Hwp Hwt Hp Ht m.
  pose proof (same_length pred y_true Hshape Hwp Hwt) as Hlen.
  pose proof (in_range_pixels pred y_true classes) as Hin.
  subst m. repeat split.
  - intros i Hi. rewrite confusion_matrix_row_total by done.
    rewrite <- (count_pixels_truth pred) by done. f_equal.
    apply count_pixels_ext. intros px Hpx. specialize (Hin px Hp Ht Hpx). tauto.
  - intros j Hj. rewrite confusion_matrix_col_total by done.
    rewrite <- (count_pixels_pred pred y_true) by done. f_equal.
    apply count_pixels_ext. intros px Hpx. specialize (Hin px Hp Ht Hpx). tauto.
  - rewrite confusion_matrix_grand_total. f_equal.
    rewrite (count_pixels_ext _ (fun _ => True)).
    + rewrite count_pixels_all, length_zip. unfold pixel_count. lia.
    + intros px Hpx. specialize (Hin px Hp Ht Hpx). tauto.
  - unfold pixel_count. by rewrite Hlen.
Qed.

Lemma confusion_matrix_totals_witness :
  let pred := Tensor [2; 3]%nat [0; 1; 1; 1; 2; 0]%Z in
  let y_true := Tensor [2; 3]%nat [0; 0; 1; 1; 2; 2]%Z in
  let m := confusion_matrix pred y_true 3 in
  (∀ i, (i < 3)%nat -> row_total 3 m i = of_int (count_class y_true (Z.of_nat i)))
  ∧ (∀ j, (j < 3)%nat -> col_total 3 m j = of_int (count_class pred (Z.of_nat j)))
  ∧ grand_total 3 m = of_int (pixel_count pred)
  ∧ pixel_count pred = pixel_count y_true.
Proof.
  intros pred y_true.
  apply (confusion_matrix_totals pred y_true 3).
  - reflexivity.
  - reflexivity.
  - reflexivity.
  - unfold in_range; simpl; repeat constructor; lia.
  - unfold in_range; simpl; repeat constructor; lia.
Defined.

(** C10: a pixel whose true class or predicted class is not below [classes]
    is counted in no cell of the confusion matrix: cell (i, j) counts the
    pixels of true class [i] and predicted class [j], all the cells together
    count the pixels whose two values are below [classes], and that is fewer
    than all the pixels as soon as one value is out of range. *)
Theorem confusion_matrix_out_of_range (pred y_true : tensor Z) (classes : nat) :
  shape pred = shape y_true -> well_formed pred -> well_formed y_true ->
  let m := confusion_matrix pred y_true classes in
  (∀ i j, (i < classes)%nat -> (j < classes)%nat ->
     entry m i j
     = of_int (count_pixels (fun px => px.2 = Z.of_nat i ∧ px.1 = Z.of_nat j) pred y_true))
  ∧ grand_total classes m
    = of_int (count_pixels
        (fun px => (0 ≤ px.1 < Z.of_nat classes)%Z ∧ (0 ≤ px.2 < Z.of_nat classes)%Z)
        pred y_true)
  ∧ (¬ (in_range classes pred ∧ in_range classes y_true) ->
     (grand_total classes m < of_int (pixel_count pred))%Qc).
Proof.
  intros Hshape Hwp Hwt m.
  pose proof (same_length pred y_true Hshape Hwp Hwt) as Hlen.
  subst m. split; [|split].
  - intros i j Hi Hj. by apply confusion_matrix_entry.
  - apply confusion_matrix_grand_total.
  - intros Hout. rewrite confusion_matrix_grand_total.
    unfold of_int. apply (proj1 (Z2Qc_inj_lt _ _)). unfold count_pixels, pixel_count.
    set (P := fun px : Z * Z =>
      (0 ≤ px.1 < Z.of_nat classes)%Z ∧ (0 ≤ px.2 < Z.of_nat classes)%Z).
    pose proof (filter_length_le P (zip (data pred) (data y_true))) as Hle.
    rewrite length_zip in Hle.
    destruct (decide (length (filter P (zip (data pred) (data y_true)))
                      = length (zip (data pred) (data y_true)))) as [Heq|Hne].
    + exfalso. apply Hout. apply filter_length_all in Heq.
      by apply (Forall_zip_both
        (fun v => (0 ≤ v < Z.of_nat classes)%Z) (fun v => (0 ≤ v < Z.of_nat classes)%Z)).
    + rewrite length_zip in Hne. lia.
Qed.

Lemma confusion_matrix_out_of_range_witness :
  let pred := Tensor [1; 2]%nat [0; 5]%Z in
  let y_true := Tensor [1; 2]%nat [0; 0]%Z in
  (grand_total 2 (confusion_matrix pred y_true 2) < of_int (pixel_count pred))%Qc.
Proof.
  intros pred y_true.
  apply (confusion_matrix_out_of_range pred y_true 2); [reflexivity..|].
  intros [Hpred _]. unfold in_range in Hpred. simpl in Hpred.
  inversion Hpred as [|? ? _ Hrest]; subst.
  inversion Hrest as [|? ? Hfive _]; subst. lia.
Defined.

(** ** Precision and recall *)

Section precision_recall.
Local Open Scope Qc_scope.
Implicit Types (m : list (list float)) (n i : nat).

Lemma sum_below_lookup {A} (g : A -> float) (l : list A) :
  sum_below (length l) (fun k => from_option g 0 (l !! k))
  = foldr (fun x acc => g x + acc) 0 l.
Proof.
  induction l as [|x l IH] using rev_ind; [done|].
  rewrite length_app, Nat.add_1_r, sum_below_S, foldr_app. simpl.
  rewrite foldr_sum_acc, <- IH.
  rewrite lookup_app_r, Nat.sub_diag by lia. simpl. f_equal; [|ring].
  apply sum_below_ext. intros k Hk. by rewrite lookup_app_l.
Qed.

Lemma entry_from_option m i j :
  entry m i j = from_option (fun row => default 0 (row !! j)) 0 (m !! i).
Proof. unfold entry. by destruct (m !! i). Qed.

(** [np.sum(m, axis=1)] holds the row totals. *)
Lemma np_sum_axis1_lookup m n i :
  square n m -> (i < n)%nat ->
  np_sum_axis1 m !! i = Some (row_total n m i).
Proof.
  intros [Hlen Hrows] Hi. unfold np_sum_axis1, row_total.
  destruct (lookup_lt_is_Some_2 m i) as [row Hrow]; [lia|].
  rewrite list_lookup_fmap, Hrow. simpl. f_equal.
  assert (length row = n) as <-.
  { rewrite Forall_lookup in Hrows. by eapply Hrows. }
  symmetry. etrans; [|exact (sum_below_lookup (fun x => x) row)].
  apply sum_below_ext. intros j Hj. unfold entry. rewrite Hrow. simpl.
  by destruct (row !! j).
Qed.

Lemma fold_zip_plus_lookup (rs : list (list float)) (acc : list float) n i :
  length acc = n -> Forall (fun row => length row = n) rs -> (i < n)%nat ->
  fold_left (zip_with Qcplus) rs acc !! i
  = Some (default 0 (acc !! i) + foldr (fun row a => default 0 (row !! i) + a) 0 rs).
Proof.
  revert acc. induction rs as [|r rs IH]; intros acc Hacc Hrs Hi; simpl.
  - destruct (lookup_lt_is_Some_2 acc i) as [x Hx]; [lia|].
    rewrite Hx. simpl. by rewrite Qcplus_0_r.
  - inversion Hrs as [|? ? Hr Hrs']; subst.
    rewrite IH; [|by rewrite length_zip_with; lia|done|done].
    rewrite lookup_zip_with.
    destruct (lookup_lt_is_Some_2 acc i) as [x Hx]; [lia|].
    destruct (lookup_lt_is_Some_2 r i) as [y Hy]; [lia|].
    rewrite Hx, Hy. simpl. f_equal. ring.
Qed.

(** [np.sum(m, axis=0)] holds the column totals. *)
Lemma np_sum_axis0_lookup m n i :
  square n m -> (i < n)%nat ->
  np_sum_axis0 m !! i = Some (col_total n m i).
Proof.
  intros [Hlen Hrows] Hi. unfold col_total.
  rewrite (sum_below_ext _ _ (fun k => from_option (fun row => default 0 (row !! i)) 0 (m !! k)))
    by (intros; apply entry_from_option).
  rewrite <- Hlen at 1. rewrite sum_below_lookup.
  destruct m as [|r rs]; [simpl in Hlen; lia|].
  inversion Hrows as [|? ? Hr Hrs]; subst. simpl.
  by rewrite (fold_zip_plus_lookup rs r (length (r :: rs)) i).
Qed.

(** The loop of [precision_recall] never raises on a square matrix, and
    fills both arrays. *)
Lemma precision_recall_square m n (smooth : float) :
  square n m ->
  precision_recall m smooth
  = Ok ((fun i => (entry m i i + smooth) / (col_total n m i + smooth)) <$> seq 0 n,
        (fun i => (entry m i i + smooth) / (row_total n m i + smooth)) <$> seq 0 n).
Proof.
  intros Hsq. pose proof Hsq as [Hlen Hrows]. unfold precision_recall.
  rewrite Hlen.
  rewrite (for_each_ok _ (fun '(precision, recall) i =>
    (<[i := (entry m i i + smooth) / (col_total n m i + smooth)]> precision,
     <[i := (entry m i i + smooth) / (row_total n m i + smooth)]> recall))).
  - rewrite (fold_left_pair
      (fun precision i => <[i := (entry m i i + smooth) / (col_total n m i + smooth)]> precision)
      (fun recall i => <[i := (entry m i i + smooth) / (row_total n m i + smooth)]> recall)).
    unfold np_zeros. by rewrite !insert_loop_full.
  - intros [precision recall] i Hi.
    apply elem_of_seq in Hi. unfold range in Hi.
    rewrite (np_sum_axis0_lookup m n i), (np_sum_axis1_lookup m n i) by (done || lia).
    unfold entry.
    destruct (lookup_lt_is_Some_2 m i) as [row Hrow]; [lia|].
    rewrite Hrow. simpl.
    destruct (lookup_lt_is_Some_2 row i) as [x Hx].
    { rewrite Forall_lookup in Hrows. rewrite (Hrows i row Hrow). lia. }
    rewrite Hx. done.
Qed.
End precision_recall.

(** C2: on a square matrix, [precision_recall] returns without raising, and
    for every class [i] the precision is [(M[i][i] + smooth) / (colSum[i] +
    smooth)], with [colSum[i]] the total of column [i], and the recall is
    [(M[i][i] + smooth) / (rowSum[i] + smooth)], with [rowSum[i]] the total of
    row [i]. *)
Theorem precision_recall_formula (m : list (list float)) (n : nat) (smooth : float) :
  square n m ->
  ∃ precision recall,
    precision_recall m smooth = Ok (precision, recall)
    ∧ length precision = n ∧ length recall = n
    ∧ ∀ i, (i < n)%nat ->
        precision !! i = Some ((entry m i i + smooth) / (col_total n m i + smooth))%Qc
        ∧ recall !! i = Some ((entry m i i + smooth) / (row_total n m i + smooth))%Qc.
Proof.
  intros Hsq. eexists _, _. split; [by apply precision_recall_square|].
  rewrite !length_fmap, !length_seq. repeat split.
  - by rewrite list_lookup_fmap, lookup_seq_lt.
  - by rewrite list_lookup_fmap, lookup_seq_lt.
Qed.

Lemma precision_recall_formula_witness :
  let m := [[of_int 1; of_int 1; of_int 0];
            [of_int 0; of_int 2; of_int 0];
            [of_int 1; of_int 0; of_int 1]] in
  ∃ precision recall,
    precision_recall m smooth_1e_6 = Ok (precision, recall)
    ∧ length precision = 3%nat ∧ length recall = 3%nat
    ∧ ∀ i, (i < 3)%nat ->
        precision !! i = Some ((entry m i i + smooth_1e_6) / (col_total 3 m i + smooth_1e_6))%Qc
        ∧ recall !! i = Some ((entry m i i + smooth_1e_6) / (row_total 3 m i + smooth_1e_6))%Qc.
Proof.
  intros m. apply (precision_recall_formula m 3 smooth_1e_6).
  split; [reflexivity|]. repeat constructor.
Defined.

(** ** Intersection over union, both ways *)

Section iou.
Local Open Scope Qc_scope.
Implicit Types (pred y_true : tensor Z) (classes : nat).

Lemma smooth_1e_6_pos : 0 < smooth_1e_6.
Proof. reflexivity. Qed.

(** A count plus a positive smoothing term is not zero. *)
Lemma smoothed_nonzero (z : Z) (smooth : float) :
  (0 ≤ z)%Z -> 0 < smooth -> of_int z + smooth ≠ 0.
Proof.
  intros Hz Hs. apply not_eq_sym, Qclt_not_eq, Qcplus_nonneg_pos; [|done].
  unfold of_int. rewrite <- Z2Qc_inj_0. by apply (proj1 (Z2Qc_inj_le _ _)).
Qed.

(** The loop of [iou] fills the cells from [idx] on, which are the cells
    that it returns. *)
Lemma iou_cells pred y_true classes (ignore_background : bool) (smooth : float) :
  iou pred y_true classes ignore_background smooth
  = (fun i =>
       (of_int (count_pixels (fun px => px.1 = Z.of_nat i ∧ px.2 = Z.of_nat i) pred y_true)
        + smooth)
       / (of_int (count_pixels (fun px => px.1 = Z.of_nat i ∨ px.2 = Z.of_nat i) pred y_true)
          + smooth))
    <$> seq (if ignore_background then 1 else 0)
            (classes - (if ignore_background then 1 else 0)).
Proof.
  unfold iou, range, np_zeros.
  set (idx := if ignore_background then 1%nat else 0%nat).
  erewrite fold_left_ext
    by (intros; rewrite sum_pred_and_truth, sum_pred_or_truth; reflexivity).
  destruct (decide (idx ≤ classes)%nat) as [Hle|Hgt].
  - rewrite insert_loop by lia.
    rewrite drop_app_length' by (by rewrite length_replicate).
    replace (classes - (idx + (classes - idx)))%nat with 0%nat by lia.
    by rewrite app_nil_r.
  - replace (classes - idx)%nat with 0%nat by lia. simpl.
    by rewrite drop_replicate, (proj2 (Nat.sub_0_le _ _)) by lia.
Qed.

(** On the matrix of [confusion_matrix], [iou_confusion] returns without
    raising. *)
Lemma iou_confusion_cells pred y_true classes (ignore_background : bool) :
  let m := confusion_matrix pred y_true classes in
  let cells :=
    (fun i =>
       1 / (1 / ((entry m i i + smooth_1e_6) / (col_total classes m i + smooth_1e_6))
            + 1 / ((entry m i i + smooth_1e_6) / (row_total classes m i + smooth_1e_6))
            - 1))
    <$> seq 0 classes in
  iou_confusion pred y_true classes ignore_background
  = Ok (if ignore_background then drop 1 cells else cells).
Proof.
  intros m cells. unfold iou_confusion. fold m.
  rewrite (precision_recall_square m classes) by apply confusion_matrix_square.
  simpl. f_equal.
  rewrite <- !list_fmap_compose, zip_with_fmap_l, zip_with_fmap_r, zip_with_diag.
  rewrite <- !list_fmap_compose. done.
Qed.

Lemma iou_algebra (I P T U s : float) :
  U + I = P + T ->
  I + s ≠ 0 -> P + s ≠ 0 -> T + s ≠ 0 -> U + s ≠ 0 ->
  1 / (1 / ((I + s) / (P + s)) + 1 / ((I + s) / (T + s)) - 1) = (I + s) / (U + s).
Proof.
  intros HU HI HP HT HUs.
  assert (U = P + T - I) as -> by (rewrite <- HU; ring).
  field. repeat split; done.
Qed.
End iou.

Section iou_agreement.
Local Open Scope Qc_scope.
Implicit Types (pred y_true : tensor Z) (classes : nat).

(** Class by class, the combination of precision and recall is the
    smoothed ratio of intersection to union, when every value is a class
    index. *)
Lemma iou_confusion_cell pred y_true classes (i : nat) :
  length (data pred) = length (data y_true) ->
  in_range classes pred -> in_range classes y_true ->
  (i < classes)%nat ->
  let m := confusion_matrix pred y_true classes in
  1 / (1 / ((entry m i i + smooth_1e_6) / (col_total classes m i + smooth_1e_6))
       + 1 / ((entry m i i + smooth_1e_6) / (row_total classes m i + smooth_1e_6))
       - 1)
  = (of_int (count_pixels (fun px => px.1 = Z.of_nat i ∧ px.2 = Z.of_nat i) pred y_true)
     + smooth_1e_6)
    / (of_int (count_pixels (fun px => px.1 = Z.of_nat i ∨ px.2 = Z.of_nat i) pred y_true)
       + smooth_1e_6).
Proof.
  intros Hlen Hp Ht Hi m. subst m.
  pose proof (in_range_pixels pred y_true classes) as Hin.
  rewrite confusion_matrix_entry, confusion_matrix_col_total,
    confusion_matrix_row_total by done.
  rewrite (count_pixels_ext (fun px => px.2 = Z.of_nat i ∧ px.1 = Z.of_nat i)
             (fun px => px.1 = Z.of_nat i ∧ px.2 = Z.of_nat i))
    by (intros; tauto).
  rewrite (count_pixels_ext
             (fun px => px.1 = Z.of_nat i ∧ (0 ≤ px.2 < Z.of_nat classes)%Z)
             (fun px => px.1 = Z.of_nat i))
    by (intros px Hpx; specialize (Hin px Hp Ht Hpx); tauto).
  rewrite (count_pixels_ext
             (fun px => px.2 = Z.of_nat i ∧ (0 ≤ px.1 < Z.of_nat classes)%Z)
             (fun px => px.2 = Z.of_nat i))
    by (intros px Hpx; specialize (Hin px Hp Ht Hpx); tauto).
  apply iou_algebra.
  - unfold of_int. rewrite <- !Z2Qc_inj_add. f_equal.
    apply (count_pixels_or_and (fun px => px.1 = Z.of_nat i) (fun px => px.2 = Z.of_nat i)).
  - apply smoothed_nonzero; [apply count_pixels_nonneg|apply smooth_1e_6_pos].
  - apply smoothed_nonzero; [apply count_pixels_nonneg|apply smooth_1e_6_pos].
  - apply smoothed_nonzero; [apply count_pixels_nonneg|apply smooth_1e_6_pos].
  - apply smoothed_nonzero; [apply count_pixels_nonneg|apply smooth_1e_6_pos].
Qed.
End iou_agreement.

(** C1, as the code has it: when every value of [pred] and of [y_true] is a
    class index below [classes], [iou_confusion] returns, for the classes that
    it keeps, exactly the numbers that [iou] counts directly (class 0 left out
    of both when [ignore_background] is set). *)
Theorem iou_confusion_agrees (pred y_true : tensor Z) (classes : nat)
    (ignore_background : bool) :
  shape pred = shape y_true -> well_formed pred -> well_formed y_true ->
  in_range classes pred -> in_range classes y_true ->
  iou_confusion pred y_true classes ignore_background
  = Ok (iou pred y_true classes ignore_background smooth_1e_6).
Proof.
  intros Hshape Hwp Hwt Hp Ht.
  pose proof (same_length pred y_true Hshape Hwp Hwt) as Hlen.
  rewrite iou_confusion_cells, iou_cells. f_equal.
  destruct ignore_background.
  - rewrite <- fmap_drop, drop_seq. simpl.
    apply list_fmap_ext. intros k i Hk. apply lookup_seq in Hk as [-> Hk].
    apply iou_confusion_cell; (done || lia).
  - rewrite Nat.sub_0_r.
    apply list_fmap_ext. intros k i Hk. apply lookup_seq in Hk as [-> Hk].
    apply iou_confusion_cell; (done || lia).
Qed.

Lemma iou_confusion_agrees_witness :
  let pred := Tensor [2; 3]%nat [0; 1; 1; 1; 2; 0]%Z in
  let y_true := Tensor [2; 3]%nat [0; 0; 1; 1; 2; 2]%Z in
  iou_confusion pred y_true 3 true = Ok (iou pred y_true 3 true smooth_1e_6).
Proof.
  intros pred y_true.
  apply (iou_confusion_agrees pred y_true 3 true).
  - reflexivity.
  - reflexivity.
  - reflexivity.
  - unfold in_range; simpl; repeat constructor; lia.
  - unfold in_range; simpl; repeat constructor; lia.
Defined.

(** Equality of lists of rationals is decided on their numerators and
    denominators. *)
Lemma this_inj_list (l k : list float) :
  Qcanon.this <$> l = Qcanon.this <$> k -> l = k.
Proof.
  revert k. induction l as [|x l IH]; intros [|y k] Heq; try done.
  simpl in Heq. injection Heq as Hxy Hlk.
  f_equal; [by apply Qc_decomp|by apply IH].
Qed.

(** C1, as stated, fails when a value is not a class index: one pixel,
    predicted 1, of true value 5, two classes.  No denominator vanishes
    (precision and recall are both 1), the direct count gives
    1e-6 / (1 + 1e-6) for class 1 and the confusion matrix gives 1. *)
Lemma iou_confusion_disagrees :
  let pred := Tensor [1; 1; 1]%nat [1]%Z in
  let y_true := Tensor [1; 1; 1]%nat [5]%Z in
  shape pred = shape y_true ∧ well_formed pred ∧ well_formed y_true
  ∧ precision_recall (confusion_matrix pred y_true 2) smooth_1e_6
    = Ok ([1; 1]%Qc, [1; 1]%Qc)
  ∧ iou pred y_true 2 true smooth_1e_6 = [Q2Qc (1 # 1000001)]
  ∧ iou_confusion pred y_true 2 true = Ok [1%Qc].
Proof.
  intros pred y_true. split; [reflexivity|]. split; [reflexivity|].
  split; [reflexivity|]. split.
  - rewrite (precision_recall_square _ 2) by apply confusion_matrix_square.
    f_equal. apply pair_equal_spec.
    split; apply this_inj_list; vm_compute; reflexivity.
  - split.
    + apply this_inj_list. vm_compute. reflexivity.
    + rewrite iou_confusion_cells. apply (f_equal Ok).
      apply this_inj_list. vm_compute. reflexivity.
Qed.

(** ** Mean class accuracy *)

Section mean_accuracy.
Local Open Scope Qc_scope.
Implicit Types (pred y_true : tensor Z) (classes : nat).

Lemma filter_length_mono {A} (P Q : A -> Prop) `{!∀ x, Decision (P x)}
    `{!∀ x, Decision (Q x)} (l : list A) :
  (∀ x, x ∈ l -> P x -> Q x) ->
  (length (filter P l) ≤ length (filter Q l))%nat.
Proof.
  induction l as [|x l IH]; intros HPQ; [done|].
  rewrite !filter_cons.
  assert (P x -> Q x) as Hx by (apply HPQ; left).
  assert (length (filter P l) ≤ length (filter Q l))%nat as Hl.
  { apply IH. intros y Hy. apply HPQ. by right. }
  repeat case_decide; simpl; try tauto; lia.
Qed.

Lemma np_mean_fmap (n : nat) (f : nat -> float) :
  np_mean (f <$> seq 0 n) = arithmetic_mean n f.
Proof.
  destruct n as [|n]; [done|].
  unfold np_mean, arithmetic_mean.
  rewrite sum_below_fmap, length_fmap, length_seq. done.
Qed.

(** The loop of [mean_accuracy] fills one cell for each class. *)
Lemma mean_accuracy_cells pred y_true classes (smooth : float) :
  length (data pred) = length (data y_true) ->
  mean_accuracy pred y_true classes smooth
  = arithmetic_mean classes (fun i =>
      (smooth + of_int (count_pixels (fun px => px.1 = Z.of_nat i ∧ px.2 = Z.of_nat i)
                          pred y_true))
      / (smooth + of_int (count_class y_true (Z.of_nat i)))).
Proof.
  intros Hlen. unfold mean_accuracy, np_zeros.
  erewrite fold_left_ext.
  2:{ intros acc i.
      rewrite sum_pred_and_truth, (sum_truth pred y_true), count_pixels_truth by done.
      reflexivity. }
  by rewrite insert_loop_full, np_mean_fmap.
Qed.

(** No pixel of class [c] in the ground truth: no pixel rightly predicted
    as [c] either. *)
Lemma absent_class_never_hit pred y_true (c : Z) :
  length (data pred) = length (data y_true) ->
  count_class y_true c = 0%Z ->
  count_pixels (fun px => px.1 = c ∧ px.2 = c) pred y_true = 0%Z.
Proof.
  intros Hlen Habsent. rewrite <- (count_pixels_truth pred) in Habsent by done.
  pose proof (count_pixels_nonneg (fun px => px.1 = c ∧ px.2 = c) pred y_true) as Hge.
  unfold count_pixels in *.
  pose proof (filter_length_mono (fun px : Z * Z => px.1 = c ∧ px.2 = c)
                (fun px => px.2 = c) (zip (data pred) (data y_true))) as Hle.
  specialize (Hle ltac:(by intros ? ? [? ?])). lia.
Qed.
End mean_accuracy.

(** C6: [mean_accuracy] returns the arithmetic mean, over the classes below
    [classes], of [(smooth + hits i) / (smooth + truth i)], where [hits i]
    counts the pixels of true class [i] predicted as [i] and [truth i] the
    pixels of true class [i]; a class with no pixel in the ground truth
    contributes the ratio 1. *)
Theorem mean_accuracy_is_mean (pred y_true : tensor Z) (classes : nat) (smooth : float) :
  shape pred = shape y_true -> well_formed pred -> well_formed y_true ->
  (0 < smooth)%Qc ->
  let ratio := fun i : nat =>
    ((smooth + of_int (count_pixels (fun px => px.1 = Z.of_nat i ∧ px.2 = Z.of_nat i)
                         pred y_true))
     / (smooth + of_int (count_class y_true (Z.of_nat i))))%Qc in
  mean_accuracy pred y_true classes smooth = arithmetic_mean classes ratio
  ∧ ∀ i, (i < classes)%nat -> count_class y_true (Z.of_nat i) = 0%Z -> ratio i = 1%Qc.
Proof.
  intros Hshape Hwp Hwt Hs ratio.
  pose proof (same_length pred y_true Hshape Hwp Hwt) as Hlen.
  split; [by apply mean_accuracy_cells|].
  intros i _ Habsent. subst ratio. simpl.
  rewrite Habsent, absent_class_never_hit by done.
  unfold of_int. rewrite Z2Qc_inj_0, Qcplus_0_r.
  field. by apply not_eq_sym, Qclt_not_eq.
Qed.

Lemma mean_accuracy_is_mean_witness :
  let pred := Tensor [2; 3]%nat [0; 1; 1; 1; 0; 0]%Z in
  let y_true := Tensor [2; 3]%nat [0; 0; 1; 1; 1; 1]%Z in
  let ratio := fun i : nat =>
    ((smooth_1e_8
      + of_int (count_pixels (fun px => px.1 = Z.of_nat i ∧ px.2 = Z.of_nat i) pred y_true))
     / (smooth_1e_8 + of_int (count_class y_true (Z.of_nat i))))%Qc in
  mean_accuracy pred y_true 3 smooth_1e_8 = arithmetic_mean 3 ratio
  ∧ ∀ i, (i < 3)%nat -> count_class y_true (Z.of_nat i) = 0%Z -> ratio i = 1%Qc.
Proof.
  intros pred y_true.
  apply (mean_accuracy_is_mean pred y_true 3 smooth_1e_8); reflexivity.
Defined.

(** ** Pixel accuracy *)

Section pixel_accuracy.
Local Open Scope Qc_scope.
Implicit Types (predict y_true : tensor Z).

(** The loop [for i in shape: total *= i]. *)
Lemma total_loop (s : list nat) (a : Z) :
  fold_left (fun total i => total * Z.of_nat i)%Z s a = (a * Z.of_nat (numel s))%Z.
Proof.
  revert a. induction s as [|d s IH]; intros a; simpl; [lia|].
  rewrite IH. unfold numel. lia.
Qed.

Lemma sum_item_type_float (m : tensor bool) :
  sum_item (type_float m) = of_int (torch_sum m).
Proof.
  unfold sum_item, type_float, torch_sum, of_int. cbn [data].
  induction (data m) as [|b l IH].
  - symmetry. apply Z2Qc_inj_0.
  - rewrite fmap_cons. cbn [foldr]. rewrite IH, Z2Qc_inj_add.
    by destruct b; rewrite ?Z2Qc_inj_1, ?Z2Qc_inj_0.
Qed.

Lemma correct_count predict y_true :
  sum_item (type_float (eq_tensor predict y_true))
  = of_int (count_pixels (fun px => px.1 = px.2) predict y_true).
Proof.
  rewrite sum_item_type_float. f_equal. unfold eq_tensor.
  apply (torch_sum_mask Z.eqb). intros p t. simpl. by rewrite Z.eqb_eq.
Qed.

(** Past the assertion, [pixel_accuracy] divides the number of agreeing
    pixels by the number of elements that the shape announces. *)
Lemma pixel_accuracy_same_shape predict y_true :
  shape predict = shape y_true ->
  pixel_accuracy predict y_true
  = truediv (of_int (count_pixels (fun px => px.1 = px.2) predict y_true))
      (Z.of_nat (numel (shape predict))).
Proof.
  intros Hshape. unfold pixel_accuracy.
  rewrite decide_True by done.
  rewrite total_loop, correct_count. f_equal. lia.
Qed.

Lemma truediv_nonzero (a : float) (b : Z) :
  b ≠ 0%Z -> truediv a b = Ok (a / of_int b).
Proof. intros Hb. unfold truediv. by rewrite decide_False. Qed.

Lemma of_int_nonzero (z : Z) : z ≠ 0%Z -> of_int z ≠ 0.
Proof.
  intros Hz Heq. apply Hz. apply Z2Qc_inj. by rewrite Z2Qc_inj_0.
Qed.

Lemma Forall2_zip {A B} (R : A -> B -> Prop) (l : list A) (k : list B) (px : A * B) :
  Forall2 R l k -> px ∈ zip l k -> R px.1 px.2.
Proof.
  intros Hall. induction Hall as [|x y l k Hxy Hall IH]; simpl; intros Hpx.
  - by apply elem_of_nil in Hpx.
  - apply elem_of_cons in Hpx as [->|Hpx]; [done|by apply IH].
Qed.

(** A count over a total is a fraction. *)
Lemma fraction_bounds (c n : Z) :
  (0 ≤ c ≤ n)%Z -> (0 < n)%Z -> 0 ≤ of_int c / of_int n ∧ of_int c / of_int n ≤ 1.
Proof.
  intros Hc Hn. unfold of_int.
  assert (0 < Qc_of_Z n) as Hpos.
  { rewrite <- Z2Qc_inj_0. by apply (proj1 (Z2Qc_inj_lt _ _)). }
  assert (0 ≤ Qc_of_Z c) as Hnonneg.
  { rewrite <- Z2Qc_inj_0. apply (proj1 (Z2Qc_inj_le _ _)). lia. }
  assert (Qc_of_Z c ≤ Qc_of_Z n) as Hle.
  { apply (proj1 (Z2Qc_inj_le _ _)). lia. }
  pose proof (Qcinv_pos _ Hpos) as Hinv.
  unfold Qcdiv. split.
  - apply Qcmult_nonneg_nonneg; [done|]. by apply Qclt_le_weak.
  - rewrite <- (Qcmult_inv_r (Qc_of_Z n)) by (by apply not_eq_sym, Qclt_not_eq).
    apply Qcmult_le_mono_nonneg_r; [by apply Qclt_le_weak|done].
Qed.
End pixel_accuracy.

(** C7, as the code has it: on a tensor that has at least one element, and
    at most the 2^24 elements that the [float32] count of the agreeing
    pixels is exact for, [pixel_accuracy A A] is 1, and [pixel_accuracy A B]
    is 0 when [B] has the shape of [A] and agrees with it at no pixel. *)
Theorem pixel_accuracy_extremes (A B : tensor Z) :
  well_formed A -> numel (shape A) ≠ 0%nat -> float32_exact (shape A) ->
  pixel_accuracy A A = Ok 1%Qc
  ∧ (shape A = shape B -> well_formed B -> Forall2 (fun a b => a ≠ b) (data A) (data B) ->
     pixel_accuracy A B = Ok 0%Qc).
Proof.
  intros HA Hne _. split.
  - rewrite pixel_accuracy_same_shape, truediv_nonzero by (done || lia).
    f_equal. rewrite (count_pixels_ext _ (fun _ => True)).
    + rewrite count_pixels_all, length_zip, Nat.min_id, HA.
      unfold Qcdiv. apply Qcmult_inv_r, of_int_nonzero. lia.
    + intros px Hpx. rewrite zip_diag in Hpx.
      apply list_elem_of_fmap in Hpx as (x & -> & _). done.
  - intros Hshape HB Hdiff.
    rewrite pixel_accuracy_same_shape, truediv_nonzero by (done || lia).
    f_equal. rewrite count_pixels_none.
    + unfold of_int, Qcdiv. by rewrite Z2Qc_inj_0, Qcmult_0_l.
    + intros px Hpx. by apply (Forall2_zip _ _ _ _ Hdiff).
Qed.

Lemma pixel_accuracy_extremes_witness :
  let A := Tensor [1; 2; 2]%nat [0; 1; 2; 1]%Z in
  let B := Tensor [1; 2; 2]%nat [1; 2; 0; 0]%Z in
  pixel_accuracy A A = Ok 1%Qc ∧ pixel_accuracy A B = Ok 0%Qc.
Proof.
  intros A B.
  destruct (pixel_accuracy_extremes A B) as [Hsame Hnone].
  - reflexivity.
  - simpl. lia.
  - unfold float32_exact. simpl. lia.
  - split; [exact Hsame|]. apply Hnone.
    + reflexivity.
    + reflexivity.
    + repeat constructor; simpl; lia.
Defined.

(** C7, as stated, fails on a tensor without elements: the assertion
    passes, [total] is 0 and the division raises. *)
Lemma pixel_accuracy_empty :
  let A := Tensor [0]%nat ([] : list Z) in
  well_formed A
  ∧ Forall2 (fun a b => a ≠ b) (data A) (data A)
  ∧ pixel_accuracy A A = Raise ZeroDivisionError
  ∧ pixel_accuracy A A ≠ Ok 1%Qc
  ∧ pixel_accuracy A A ≠ Ok 0%Qc.
Proof.
  intros A. split; [reflexivity|]. split; [constructor|].
  split; [reflexivity|]. split; discriminate.
Qed.

(** C9, as the code has it: tensors of different shapes fail the assertion;
    tensors of one shape pass it, and a fraction is returned when they have
    at least one element, and at most the 2^24 elements that the [float32]
    count of the agreeing pixels is exact for. *)
Theorem pixel_accuracy_assertion (predict y_true : tensor Z) :
  (shape predict ≠ shape y_true -> pixel_accuracy predict y_true = Raise AssertionError)
  ∧ (shape predict = shape y_true -> pixel_accuracy predict y_true ≠ Raise AssertionError)
  ∧ (shape predict = shape y_true -> well_formed predict -> well_formed y_true ->
     numel (shape predict) ≠ 0%nat -> float32_exact (shape predict) ->
     ∃ q, pixel_accuracy predict y_true = Ok q ∧ (0 ≤ q)%Qc ∧ (q ≤ 1)%Qc).
Proof.
  split; [|split].
  - intros Hshape. unfold pixel_accuracy. by rewrite decide_False.
  - intros Hshape. rewrite pixel_accuracy_same_shape by done.
    unfold truediv. by case_decide.
  - intros Hshape Hwp Hwt Hne _.
    pose proof (same_length predict y_true Hshape Hwp Hwt) as Hlen.
    rewrite pixel_accuracy_same_shape, truediv_nonzero by (done || lia).
    eexists. split; [done|].
    apply fraction_bounds; [|lia]. split; [apply count_pixels_nonneg|].
    unfold count_pixels.
    pose proof (filter_length_le (fun px : Z * Z => px.1 = px.2)
                  (zip (data predict) (data y_true))) as Hle.
    rewrite length_zip in Hle. unfold well_formed in Hwp. lia.
Qed.

Lemma pixel_accuracy_assertion_witness :
  pixel_accuracy (Tensor [2; 3]%nat [0; 1; 1; 1; 2; 0]%Z) (Tensor [6]%nat [0; 0; 1; 1; 2; 2]%Z)
  = Raise AssertionError
  ∧ ∃ q, pixel_accuracy (Tensor [6]%nat [0; 1; 1; 1; 2; 0]%Z) (Tensor [6]%nat [0; 0; 1; 1; 2; 2]%Z)
         = Ok q ∧ (0 ≤ q)%Qc ∧ (q ≤ 1)%Qc.
Proof.
  split.
  - apply (proj1 (pixel_accuracy_assertion _ _)). discriminate.
  - apply (proj2 (proj2 (pixel_accuracy_assertion _ _))).
    + reflexivity.
    + reflexivity.
    + reflexivity.
    + simpl. lia.
    + unfold float32_exact. simpl. lia.
Defined.

(** The worked example of the specification: four of six pixels agree. *)
Example pixel_accuracy_example :
  pixel_accuracy (Tensor [6]%nat [0; 1; 1; 1; 2; 0]%Z) (Tensor [6]%nat [0; 0; 1; 1; 2; 2]%Z)
  = Ok (of_int 4 / of_int 6)%Qc.
Proof. rewrite pixel_accuracy_same_shape, truediv_nonzero by done. reflexivity. Qed.

(** C9, as stated, fails on tensors of one shape that have no element: the
    assertion passes, and no fraction is returned. *)
Lemma pixel_accuracy_no_fraction :
  let predict := Tensor [2; 0; 3]%nat ([] : list Z) in
  let y_true := Tensor [2; 0; 3]%nat ([] : list Z) in
  shape predict = shape y_true
  ∧ well_formed predict ∧ well_formed y_true
  ∧ pixel_accuracy predict y_true = Raise ZeroDivisionError
  ∧ ¬ ∃ q, pixel_accuracy predict y_true = Ok q.
Proof.
  intros predict y_true. split; [reflexivity|]. split; [reflexivity|].
  split; [reflexivity|]. split; [reflexivity|]. intros [q Hq]. discriminate.
Qed.

(** ** The colour table *)

Section colour_table.
Local Open Scope Z_scope.

Lemma byte_val_range (b : byte) : 0 ≤ byte_val b < 256.
Proof. unfold byte_val. pose proof (Byte.to_N_bounded b). lia. Qed.

Lemma encode_range (r g b : Z) :
  0 ≤ r < 256 -> 0 ≤ g < 256 -> 0 ≤ b < 256 -> 0 ≤ encode r g b < 256 ^ 3.
Proof. unfold encode. lia. Qed.

Lemma encode_inj (r g b r' g' b' : Z) :
  0 ≤ r < 256 -> 0 ≤ g < 256 -> 0 ≤ b < 256 ->
  0 ≤ r' < 256 -> 0 ≤ g' < 256 -> 0 ≤ b' < 256 ->
  encode r g b = encode r' g' b' -> r = r' ∧ g = g' ∧ b = b'.
Proof. unfold encode. lia. Qed.

Lemma is_color_inv (c : list Z) :
  is_color c ->
  ∃ r g b, c = [r; g; b] ∧ 0 ≤ r < 256 ∧ 0 ≤ g < 256 ∧ 0 ≤ b < 256.
Proof.
  intros [Hlen Hall].
  destruct c as [|r [|g [|b [|? ?]]]]; try done.
  inversion Hall as [|? ? Hr Hall1]; subst.
  inversion Hall1 as [|? ? Hg Hall2]; subst.
  inversion Hall2 as [|? ? Hb _]; subst.
  by exists r, g, b.
Qed.

Lemma normalize_index_range (n k : Z) : 0 ≤ k < n -> normalize_index n k = Some k.
Proof. intros Hk. unfold normalize_index. by rewrite decide_True. Qed.

Lemma VOC_COLORMAP_colors : Forall is_color VOC_COLORMAP.
Proof. repeat constructor; lia. Qed.

(** One turn of the loop writes the index at the code of the colour. *)
Lemma record_color_ok (t : long_tensor) (i : Z) (c : list Z) :
  size t = 256 ^ 3 -> is_color c ->
  record_color t (i, c) = Ok (LongTensor (size t) (<[color_code c := i]> (cells t))).
Proof.
  intros Hsize Hc. apply is_color_inv in Hc as (r & g & b & -> & Hr & Hg & Hb).
  unfold record_color, setitem, color_code. simpl.
  fold (encode r g b). rewrite Hsize, normalize_index_range by by apply encode_range.
  done.
Qed.

Lemma record_colors_ok (l : list (Z * list Z)) (t : long_tensor) :
  size t = 256 ^ 3 -> Forall (fun ic => is_color ic.2) l ->
  for_each record_color l t
  = Ok (LongTensor (size t)
          (fold_left (fun m ic => <[color_code ic.2 := ic.1]> m) l (cells t))).
Proof.
  revert t. induction l as [|[i c] l IH]; intros t Hsize Hl; cbn [for_each fold_left].
  - by destruct t.
  - inversion Hl as [|? ? Hc Hl']; subst.
    rewrite record_color_ok by done. cbn [mbind result_bind]. by rewrite IH.
Qed.

(** A cell that no colour names keeps its value. *)
Lemma untouched_cell (l : list (Z * list Z)) (m : gmap Z Z) (k : Z) :
  (∀ ic, ic ∈ l -> color_code ic.2 ≠ k) ->
  fold_left (fun m ic => <[color_code ic.2 := ic.1]> m) l m !! k = m !! k.
Proof.
  revert m. induction l as [|ic l IH]; intros m Hk; simpl; [done|].
  rewrite IH by (intros; apply Hk; by right).
  apply lookup_insert_ne, Hk. by left.
Qed.

Lemma enumerate_snd {A} (l : list A) (ic : Z * A) : ic ∈ enumerate l -> ic.2 ∈ l.
Proof. destruct ic as [i c]. unfold enumerate. apply elem_of_zip_r. Qed.

(** The table that [voc_colormap2label] builds. *)
Lemma voc_colormap2label_ok :
  voc_colormap2label
  = Ok (LongTensor (256 ^ 3)
          (fold_left (fun m ic => <[color_code ic.2 := ic.1]> m)
             (enumerate VOC_COLORMAP) ∅)).
Proof.
  unfold voc_colormap2label. rewrite record_colors_ok; [done|done|].
  apply Forall_forall. intros ic Hic. apply list_elem_of_In, enumerate_snd in Hic.
  pose proof VOC_COLORMAP_colors as Hall. rewrite Forall_forall in Hall.
  by apply Hall, list_elem_of_In.
Qed.
End colour_table.

Section decoding.
Local Open Scope Z_scope.

(** Each colour of the list is mapped to its position in the list: no
    colour is listed twice. *)
Lemma known_color_cell (i : nat) (c : list Z) :
  VOC_COLORMAP !! i = Some c ->
  fold_left (fun m ic => <[color_code ic.2 := ic.1]> m) (enumerate VOC_COLORMAP)
    (∅ : gmap Z Z) !! color_code c = Some (Z.of_nat i).
Proof.
  intros Hi. pose proof (lookup_lt_Some _ _ _ Hi) as Hlt.
  do 21 (destruct i as [|i]; [injection Hi as <-; vm_compute; reflexivity|]).
  simpl in Hlt. lia.
Qed.

Lemma getitem_cell (n k : Z) (m : gmap Z Z) :
  0 ≤ k < n -> getitem (LongTensor n m) k = Ok (default 0 (m !! k)).
Proof. intros Hk. unfold getitem. simpl. by rewrite normalize_index_range. Qed.

Lemma wrap32_small (z : Z) : - 2 ^ 31 ≤ z < 2 ^ 31 -> wrap32 z = z.
Proof. intros Hz. unfold wrap32. rewrite Z.mod_small; lia. Qed.

(** The [int32] arithmetic on the channels of a pixel does not wrap. *)
Lemma wrap32_encode (r g b : Z) :
  0 ≤ r < 256 -> 0 ≤ g < 256 -> 0 ≤ b < 256 ->
  wrap32 (wrap32 (wrap32 (wrap32 (r * 256) + g) * 256) + b) = encode r g b.
Proof.
  intros Hr Hg Hb. unfold encode.
  rewrite (wrap32_small (r * 256)) by lia.
  rewrite (wrap32_small (r * 256 + g)) by lia.
  rewrite (wrap32_small ((r * 256 + g) * 256)) by lia.
  apply wrap32_small. lia.
Qed.

Lemma all_below_true (n : nat) (p : nat -> bool) :
  all_below n p = true <-> ∀ i, (i < n)%nat -> p i = true.
Proof.
  unfold all_below. rewrite forallb_forall. split.
  - intros Hall i Hi. apply Hall, in_seq. lia.
  - intros Hall i Hi. apply Hall. apply in_seq in Hi. lia.
Qed.

Lemma all2_true {A} (p : A -> bool) (a : array2 A) :
  all2 p a = true <-> ∀ h w, (h < rows a)%nat -> (w < cols a)%nat -> p (at2 a h w) = true.
Proof.
  unfold all2. rewrite all_below_true. split.
  - intros Hall h w Hh Hw. specialize (Hall h Hh).
    rewrite all_below_true in Hall. by apply Hall.
  - intros Hall h Hh. apply all_below_true. intros w Hw. by apply Hall.
Qed.

(** Decoding reads, at every pixel, the cell of the table at the code of
    the colour of the pixel. *)
Lemma voc_label_indices_cells (img : image) (m : gmap Z Z) :
  dim0 img = 3%nat ->
  ∃ lbl, voc_label_indices img (LongTensor (256 ^ 3) m) = Ok lbl
    ∧ rows lbl = dim1 img ∧ cols lbl = dim2 img
    ∧ ∀ h w, at2 lbl h w = default 0 (m !! color_code (pixel_color img h w)).
Proof.
  intros Hrgb. unfold voc_label_indices, select_last.
  cbn [permute_1_2_0 astype_int32 dim0 dim1 dim2 at3]. rewrite Hrgb.
  rewrite !decide_True by lia. cbn [mbind result_bind at3].
  assert (∀ h w,
    wrap32 (wrap32 (wrap32 (wrap32 (byte_val (at3 img 0 h w) * 256)
      + byte_val (at3 img 1 h w)) * 256) + byte_val (at3 img 2 h w))
    = color_code (pixel_color img h w)) as Hidx.
  { intros h w. apply wrap32_encode; apply byte_val_range. }
  assert (∀ h w, 0 ≤ color_code (pixel_color img h w) < 256 ^ 3) as Hcode.
  { intros h w. apply encode_range; apply byte_val_range. }
  unfold index_long. rewrite (proj2 (all2_true _ _)).
  - eexists. split; [done|]. cbn [rows cols at2 add32 mul32 size cells].
    split; [done|]. split; [done|].
    intros h w. rewrite Hidx, normalize_index_range by apply Hcode. done.
  - intros h w _ _. cbn [at2 add32 mul32 size].
    rewrite Hidx, normalize_index_range by apply Hcode.
    by apply bool_decide_eq_true_2.
Qed.
End decoding.

Section table_contents.
Local Open Scope Z_scope.

Lemma known_color_index (i : nat) (r g b : Z) (m : gmap Z Z) :
  m = fold_left (fun m ic => <[color_code ic.2 := ic.1]> m) (enumerate VOC_COLORMAP) ∅ ->
  VOC_COLORMAP !! i = Some [r; g; b] ->
  getitem (LongTensor (256 ^ 3) m) (encode r g b) = Ok (Z.of_nat i).
Proof.
  intros -> Hi.
  assert (is_color [r; g; b]) as Hc.
  { pose proof VOC_COLORMAP_colors as Hall. rewrite Forall_lookup in Hall.
    by apply (Hall i). }
  apply is_color_inv in Hc as (r' & g' & b' & Heq & Hr & Hg & Hb).
  injection Heq as -> -> ->.
  rewrite getitem_cell by by apply encode_range.
  change (encode r' g' b') with (color_code [r'; g'; b']).
  by rewrite (known_color_cell i [r'; g'; b']).
Qed.

Lemma unknown_color_index (r g b : byte) (m : gmap Z Z) :
  m = fold_left (fun m ic => <[color_code ic.2 := ic.1]> m) (enumerate VOC_COLORMAP) ∅ ->
  [byte_val r; byte_val g; byte_val b] ∉ VOC_COLORMAP ->
  getitem (LongTensor (256 ^ 3) m) (encode (byte_val r) (byte_val g) (byte_val b)) = Ok 0.
Proof.
  intros -> Hunknown.
  pose proof (byte_val_range r) as Hr. pose proof (byte_val_range g) as Hg.
  pose proof (byte_val_range b) as Hb.
  rewrite getitem_cell by by apply encode_range.
  rewrite untouched_cell; [done|].
  intros ic Hic Hcode. apply Hunknown.
  apply enumerate_snd in Hic.
  assert (is_color ic.2) as Hc.
  { pose proof VOC_COLORMAP_colors as Hall. rewrite Forall_forall in Hall.
    by apply Hall, list_elem_of_In. }
  apply is_color_inv in Hc as (r' & g' & b' & Heq & Hr' & Hg' & Hb').
  rewrite Heq in Hcode, Hic. unfold color_code in Hcode. simpl in Hcode.
  apply encode_inj in Hcode as (-> & -> & ->); done.
Qed.
End table_contents.

(** C4: [voc_colormap2label] builds a table without raising; decoding a
    label image of three channels with it returns, at every pixel, the cell
    of the table at [(r * 256 + g) * 256 + b] for the colour (r, g, b) of the
    pixel; the table holds, at the code of each colour of [VOC_COLORMAP], the
    index of that colour, and 0 at the code of every other colour. *)
Theorem voc_label_indices_table :
  ∃ table, voc_colormap2label = Ok table
    ∧ (∀ img : image, dim0 img = 3%nat ->
         ∃ lbl, voc_label_indices img table = Ok lbl
           ∧ rows lbl = dim1 img ∧ cols lbl = dim2 img
           ∧ ∀ h w, (h < dim1 img)%nat -> (w < dim2 img)%nat ->
               getitem table (encode (byte_val (at3 img 0 h w)) (byte_val (at3 img 1 h w))
                                (byte_val (at3 img 2 h w)))
               = Ok (at2 lbl h w))
    ∧ (∀ (i : nat) (r g b : Z), VOC_COLORMAP !! i = Some [r; g; b] ->
         getitem table (encode r g b) = Ok (Z.of_nat i))
    ∧ (∀ r g b : byte, [byte_val r; byte_val g; byte_val b] ∉ VOC_COLORMAP ->
         getitem table (encode (byte_val r) (byte_val g) (byte_val b)) = Ok 0%Z).
Proof.
  eexists. split; [apply voc_colormap2label_ok|]. split; [|split].
  - intros img Hrgb.
    destruct (voc_label_indices_cells img
      (fold_left (fun m ic => <[color_code ic.2 := ic.1]> m) (enumerate VOC_COLORMAP) ∅)
      Hrgb) as (lbl & Hlbl & Hrows & Hcols & Hcells).
    exists lbl. repeat split; try done.
    intros h w _ _. rewrite Hcells.
    apply getitem_cell, encode_range; apply byte_val_range.
  - intros i r g b Hi. by apply (known_color_index i).
  - intros r g b Hunknown. by apply unknown_color_index.
Qed.

Lemma voc_label_indices_table_witness :
  let img : image :=
    Array3 3 1 2 (fun c h w =>
      match w, c with
      | O, O => "128"%byte
      | O, _ => "000"%byte
      | _, O => "001"%byte
      | _, 1%nat => "002"%byte
      | _, _ => "003"%byte
      end) in
  ∃ table lbl, voc_colormap2label = Ok table
    ∧ voc_label_indices img table = Ok lbl
    ∧ getitem table (encode 128 0 0) = Ok (at2 lbl 0 0)
    ∧ getitem table (encode 128 0 0) = Ok 1%Z
    ∧ getitem table (encode 1 2 3) = Ok (at2 lbl 0 1)
    ∧ getitem table (encode 1 2 3) = Ok 0%Z.
Proof.
  intros img.
  destruct voc_label_indices_table as (table & Htable & Hdecode & Hknown & Hunknown).
  destruct (Hdecode img eq_refl) as (lbl & Hlbl & _ & _ & Hcells).
  exists table, lbl. split; [exact Htable|]. split; [exact Hlbl|].
  split; [apply (Hcells 0%nat 0%nat); simpl; lia|].
  split; [apply (Hknown 1%nat); reflexivity|].
  split; [apply (Hcells 0%nat 1%nat); simpl; lia|].
  apply (Hunknown "001"%byte "002"%byte "003"%byte).
  intros Hin. apply list_elem_of_In in Hin. simpl in Hin.
  repeat (destruct Hin as [Hin|Hin]; [discriminate Hin|]). exact Hin.
Defined.

(** ** Decoding a label image and colouring it again *)

Section roundtrip.
Local Open Scope Z_scope.

(** The class index that decoding gives to a pixel of a known colour. *)
Lemma decoded_known_pixel (img : image) (h w : nat) :
  pixel_color img h w ∈ VOC_COLORMAP ->
  ∃ i : nat,
    VOC_COLORMAP !! i = Some (pixel_color img h w)
    ∧ default 0
        (fold_left (fun m ic => <[color_code ic.2 := ic.1]> m) (enumerate VOC_COLORMAP)
           (∅ : gmap Z Z) !! color_code (pixel_color img h w))
      = Z.of_nat i.
Proof.
  intros Hknown. apply list_elem_of_lookup in Hknown as [i Hi].
  exists i. split; [done|]. by rewrite (known_color_cell i).
Qed.

(** Colouring a class index that is in the table gives its colour. *)
Lemma label2image_cell (i : nat) (color : list Z) (c : nat) :
  VOC_COLORMAP !! i = Some color ->
  default 0
    (k ← normalize_index (Z.of_nat (length VOC_COLORMAP)) (Z.of_nat i);
     row ← VOC_COLORMAP !! Z.to_nat k;
     row !! c)
  = default 0 (color !! c).
Proof.
  intros Hi. pose proof (lookup_lt_Some _ _ _ Hi) as Hlt.
  rewrite normalize_index_range by lia. simpl. by rewrite Nat2Z.id, Hi.
Qed.
End roundtrip.

(** C5: when every pixel of a label image of three channels has a colour of
    [VOC_COLORMAP], decoding the image and colouring the class indices again
    with [label2image] gives back, at every pixel, the three values of the
    colour of that pixel. *)
Theorem label2image_voc_label_indices (img : image) (table : long_tensor) :
  voc_colormap2label = Ok table ->
  dim0 img = 3%nat ->
  (∀ h w, (h < dim1 img)%nat -> (w < dim2 img)%nat -> pixel_color img h w ∈ VOC_COLORMAP) ->
  ∃ lbl out,
    voc_label_indices img table = Ok lbl
    ∧ label2image lbl = Ok out
    ∧ dim0 out = dim1 img ∧ dim1 out = dim2 img ∧ dim2 out = 3%nat
    ∧ ∀ h w c, (h < dim1 img)%nat -> (w < dim2 img)%nat -> (c < 3)%nat ->
        at3 out h w c = byte_val (at3 img c h w).
Proof.
  intros Htable Hrgb Hknown.
  assert (table = LongTensor (256 ^ 3)
    (fold_left (fun m ic => <[color_code ic.2 := ic.1]> m) (enumerate VOC_COLORMAP) ∅))
    as -> by (pose proof voc_colormap2label_ok; congruence).
  destruct (voc_label_indices_cells img
    (fold_left (fun m ic => <[color_code ic.2 := ic.1]> m) (enumerate VOC_COLORMAP) ∅)
    Hrgb) as (lbl & Hlbl & Hrows & Hcols & Hcells).
  exists lbl. unfold label2image.
  rewrite (proj2 (all2_true _ _)).
  - eexists. split; [done|]. split; [done|]. cbn [dim0 dim1 dim2 at3].
    split; [done|]. split; [done|]. split; [done|].
    intros h w c Hh Hw Hc.
    destruct (decoded_known_pixel img h w (Hknown h w Hh Hw)) as (i & Hi & Hcell).
    rewrite Hcells, Hcell, (label2image_cell i _ c Hi).
    by destruct c as [|[|[|c]]]; [| | |lia].
  - intros h w Hh Hw. rewrite Hrows in Hh. rewrite Hcols in Hw.
    destruct (decoded_known_pixel img h w (Hknown h w Hh Hw)) as (i & Hi & Hcell).
    rewrite Hcells, Hcell. apply bool_decide_eq_true_2.
    pose proof (lookup_lt_Some _ _ _ Hi) as Hlt.
    rewrite normalize_index_range by lia. done.
Qed.

Lemma label2image_voc_label_indices_witness :
  let img : image :=
    Array3 3 1 2 (fun c h w =>
      match w, c with
      | O, O => "128"%byte
      | O, _ => "000"%byte
      | _, 1%nat => "064"%byte
      | _, _ => "000"%byte
      end) in
  ∃ table lbl out,
    voc_colormap2label = Ok table
    ∧ voc_label_indices img table = Ok lbl
    ∧ label2image lbl = Ok out
    ∧ at3 out 0 0 0 = 128%Z ∧ at3 out 0 0 1 = 0%Z ∧ at3 out 0 0 2 = 0%Z
    ∧ at3 out 0 1 0 = 0%Z ∧ at3 out 0 1 1 = 64%Z ∧ at3 out 0 1 2 = 0%Z.
Proof.
  intros img.
  destruct (label2image_voc_label_indices img _ voc_colormap2label_ok eq_refl)
    as (lbl & out & Hlbl & Hout & _ & _ & _ & Hcolors).
  - intros h w Hh Hw. simpl in Hh, Hw.
    assert (h = 0%nat) as -> by lia.
    apply list_elem_of_In. destruct w as [|[|w]]; [| |lia].
    + right. left. reflexivity.
    + do 16 right. left. reflexivity.
  - eexists _, lbl, out. split; [exact voc_colormap2label_ok|].
    split; [exact Hlbl|]. split; [exact Hout|].
    repeat split; apply Hcolors; simpl; lia.
Defined.

(** ** The dataset constructor *)

Section dataset.
(** [read_voc_images] returns the photos and the masks of the split, each
    list in the order of the manifest. *)
Lemma read_loop (images : list (image * image)) (features labels : list image) :
  fold_left (fun '(features, labels) fname =>
      (features ++ [fname.1], labels ++ [fname.2])) images (features, labels)
  = (features ++ images.*1, labels ++ images.*2).
Proof.
  revert features labels. induction images as [|fl images IH]; intros features labels; simpl.
  - by rewrite !app_nil_r.
  - rewrite IH, <- !(assoc_L (++)). done.
Qed.

Lemma read_voc_images_split (voc_dir : voc_directory) (is_train : bool) :
  read_voc_images voc_dir is_train
  = ((if is_train then train_txt voc_dir else val_txt voc_dir).*1,
     (if is_train then train_txt voc_dir else val_txt voc_dir).*2).
Proof. unfold read_voc_images. by rewrite read_loop. Qed.

(** Filtering the photos keeps the photos of the pairs whose photo passes;
    filtering the masks keeps the masks of the same pairs when the test
    cannot tell a mask from its photo. *)
Lemma filter_photos {A} (keep : A -> Prop) `{!∀ x, Decision (keep x)}
    `{!∀ fl : A * A, Decision (keep fl.1)} (pairs : list (A * A)) :
  filter keep (pairs.*1) = (filter (fun fl => keep fl.1) pairs).*1.
Proof.
  induction pairs as [|fl pairs IH]; [done|].
  rewrite fmap_cons, !filter_cons, IH.
  repeat case_decide; try done; tauto.
Qed.

Lemma filter_masks {A} (keep : A -> Prop) `{!∀ x, Decision (keep x)}
    `{!∀ fl : A * A, Decision (keep fl.1)} (pairs : list (A * A)) :
  Forall (fun fl => keep fl.1 <-> keep fl.2) pairs ->
  filter keep (pairs.*2) = (filter (fun fl => keep fl.1) pairs).*2.
Proof.
  induction pairs as [|fl pairs IH]; intros Hsame; [done|].
  inversion Hsame as [|? ? Hfl Hrest]; subst.
  rewrite fmap_cons, !filter_cons, IH by done.
  repeat case_decide; try done; tauto.
Qed.
End dataset.

(** C8, as the code has it: when every mask has the height and the width of
    its photo, the constructor keeps exactly the pairs whose height and width
    are at least those of the crop, in the order of the manifest, and entry
    [i] of the features and entry [i] of the labels come from the same
    pair. *)
Theorem VOCSegDataset_init_keeps_pairs (transform : array3 float -> array3 float)
    (is_train : bool) (crop_size : nat * nat) (voc_dir : voc_directory) :
  let pairs := if is_train then train_txt voc_dir else val_txt voc_dir in
  let kept :=
    filter (fun fl : image * image =>
      (crop_size.1 ≤ dim1 fl.1)%nat ∧ (crop_size.2 ≤ dim2 fl.1)%nat) pairs in
  Forall (fun fl : image * image => dim1 fl.2 = dim1 fl.1 ∧ dim2 fl.2 = dim2 fl.1) pairs ->
  ∃ ds, VOCSegDataset.init transform is_train crop_size voc_dir = Ok ds
    ∧ VOCSegDataset.features ds = VOCSegDataset.normalize_image transform <$> kept.*1
    ∧ VOCSegDataset.labels ds = kept.*2
    ∧ ∀ i fl, kept !! i = Some fl ->
        VOCSegDataset.features ds !! i = Some (VOCSegDataset.normalize_image transform fl.1)
        ∧ VOCSegDataset.labels ds !! i = Some fl.2.
Proof.
  intros pairs kept Hsame.
  unfold VOCSegDataset.init. rewrite read_voc_images_split. fold pairs.
  rewrite voc_colormap2label_ok. eexists. split; [done|].
  cbn [VOCSegDataset.features VOCSegDataset.labels].
  unfold VOCSegDataset.filter.
  rewrite (filter_photos (fun img : image =>
    (crop_size.1 ≤ dim1 img)%nat ∧ (crop_size.2 ≤ dim2 img)%nat) pairs).
  rewrite (filter_masks (fun img : image =>
    (crop_size.1 ≤ dim1 img)%nat ∧ (crop_size.2 ≤ dim2 img)%nat) pairs).
  - fold kept. split; [done|]. split; [done|].
    intros i fl Hi. by rewrite !list_lookup_fmap, Hi.
  - rewrite Forall_forall in Hsame. apply Forall_forall. intros fl Hfl.
    destruct (Hsame fl Hfl) as [-> ->]. done.
Qed.

Lemma VOCSegDataset_init_keeps_pairs_witness :
  let blank := fun (h w : nat) => Array3 3 h w (fun _ _ _ => "000"%byte) : image in
  let voc_dir :=
    VocDirectory [(blank 10 12, blank 10 12); (blank 5 5, blank 5 5); (blank 8 9, blank 8 9)]%nat
      [] in
  ∃ ds, VOCSegDataset.init (fun x => x) true (8, 8)%nat voc_dir = Ok ds
    ∧ VOCSegDataset.features ds
      = VOCSegDataset.normalize_image (fun x => x)
          <$> [blank 10 12; blank 8 9]%nat
    ∧ VOCSegDataset.labels ds = [blank 10 12; blank 8 9]%nat.
Proof.
  intros blank voc_dir.
  destruct (VOCSegDataset_init_keeps_pairs (fun x => x) true (8, 8)%nat voc_dir)
    as (ds & Hds & Hfeatures & Hlabels & _).
  - simpl. repeat constructor.
  - exists ds. split; [exact Hds|]. split; [exact Hfeatures|exact Hlabels].
Defined.

(** C8, as stated, fails when a mask has not the size of its photo: the
    photos and the masks are filtered apart, each on its own size.  With a
    crop of 8 by 8, a photo of 10 by 10 whose mask is 5 by 5, followed by a
    photo of 5 by 5 whose mask is 10 by 10, leave the first photo next to the
    mask of the second. *)
Lemma VOCSegDataset_init_mispairs :
  let blank := fun (h w : nat) => Array3 3 h w (fun _ _ _ => "000"%byte) : image in
  let voc_dir :=
    VocDirectory [(blank 10 10, blank 5 5); (blank 5 5, blank 10 10)]%nat [] in
  ∃ ds, VOCSegDataset.init (fun x => x) true (8, 8)%nat voc_dir = Ok ds
    ∧ VOCSegDataset.features ds = [VOCSegDataset.normalize_image (fun x => x) (blank 10 10)%nat]
    ∧ VOCSegDataset.labels ds = [blank 10 10]%nat
    ∧ (blank 10 10, blank 10 10)%nat ∉ train_txt voc_dir.
Proof.
  intros blank voc_dir.
  unfold VOCSegDataset.init. rewrite read_voc_images_split, voc_colormap2label_ok.
  eexists. split; [reflexivity|]. split; [reflexivity|]. split; [reflexivity|].
  intros Hin. apply list_elem_of_In in Hin. simpl in Hin.
  destruct Hin as [Hin|[Hin|[]]]; injection Hin as Hf Hl; discriminate.
Qed.

(** * Further properties of the metrics *)

Section iou_properties.
Local Open Scope Qc_scope.
Implicit Types (pred y_true : tensor Z) (classes : nat).

(** A smoothed ratio of a count to a larger count is in (0, 1]. *)
Lemma smoothed_ratio_bounds (a b : Z) (smooth : float) :
  (0 ≤ a ≤ b)%Z -> 0 < smooth ->
  0 < (of_int a + smooth) / (of_int b + smooth)
  ∧ (of_int a + smooth) / (of_int b + smooth) ≤ 1.
Proof.
  intros Hab Hs. unfold of_int.
  assert (0 ≤ Qc_of_Z a) as Ha.
  { rewrite <- Z2Qc_inj_0. apply (proj1 (Z2Qc_inj_le _ _)). lia. }
  assert (Qc_of_Z a ≤ Qc_of_Z b) as Hle by (apply (proj1 (Z2Qc_inj_le _ _)); lia).
  assert (0 < Qc_of_Z a + smooth) as Hnum by by apply Qcplus_nonneg_pos.
  assert (0 < Qc_of_Z b + smooth) as Hden.
  { apply Qcplus_nonneg_pos; [|done]. by etrans. }
  pose proof (Qcinv_pos _ Hden) as Hinv.
  unfold Qcdiv. split.
  - by apply Qcmult_pos_pos.
  - rewrite <- (Qcmult_inv_r (Qc_of_Z b + smooth)) by (by apply not_eq_sym, Qclt_not_eq).
    apply Qcmult_le_mono_nonneg_r; [by apply Qclt_le_weak|].
    by apply Qcplus_le_mono_r.
Qed.

Lemma intersect_le_union pred y_true (c : Z) :
  (0 ≤ count_pixels (fun px => px.1 = c ∧ px.2 = c) pred y_true
   ≤ count_pixels (fun px => px.1 = c ∨ px.2 = c) pred y_true)%Z.
Proof.
  split; [apply count_pixels_nonneg|]. unfold count_pixels.
  pose proof (filter_length_mono (fun px : Z * Z => px.1 = c ∧ px.2 = c)
                (fun px => px.1 = c ∨ px.2 = c) (zip (data pred) (data y_true))) as Hle.
  specialize (Hle ltac:(by intros ? ? [? ?]; left)). lia.
Qed.

(** Swapping the two tensors swaps the two values of every pixel. *)
Lemma filter_zip_swap {A} (P Q : A * A -> Prop) `{!∀ px, Decision (P px)}
    `{!∀ px, Decision (Q px)} (l k : list A) :
  (∀ a b, P (a, b) <-> Q (b, a)) ->
  length (filter P (zip l k)) = length (filter Q (zip k l)).
Proof.
  intros HPQ. revert k. induction l as [|a l IH]; intros [|b k]; try done.
  simpl zip. rewrite !filter_cons. specialize (IH k). specialize (HPQ a b).
  repeat case_decide; simpl; try tauto; lia.
Qed.

Lemma count_pixels_swap (P Q : Z * Z -> Prop) `{!∀ px, Decision (P px)}
    `{!∀ px, Decision (Q px)} pred y_true :
  (∀ a b, P (a, b) <-> Q (b, a)) ->
  count_pixels P pred y_true = count_pixels Q y_true pred.
Proof. intros HPQ. unfold count_pixels. f_equal. by apply filter_zip_swap. Qed.

(** On the pixels of a tensor paired with itself the two values agree. *)
Lemma zip_diag_pixel (l : list Z) (px : Z * Z) : px ∈ zip l l -> px.1 = px.2.
Proof.
  rewrite zip_diag. intros Hpx. by apply list_elem_of_fmap in Hpx as (x & -> & _).
Qed.

Lemma fmap_const_seq {A} (x : A) (a n : nat) :
  (fun _ => x) <$> seq a n = replicate n x.
Proof. revert a. induction n as [|n IH]; intros a; simpl; [done|]. by rewrite IH. Qed.
End iou_properties.

(** X1: on tensors of one shape, and with the smoothing term that it has by
    default, [iou] returns one number for each class from [idx] on, that is
    [classes - idx] numbers, and each of them is in (0, 1]. *)
Theorem iou_bounds (pred y_true : tensor Z) (classes : nat) (ignore_background : bool) :
  shape pred = shape y_true -> well_formed pred -> well_formed y_true ->
  length (iou pred y_true classes ignore_background smooth_1e_6)
  = (classes - (if ignore_background then 1 else 0))%nat
  ∧ Forall (fun q => 0 < q ∧ q ≤ 1)%Qc
      (iou pred y_true classes ignore_background smooth_1e_6).
Proof.
  intros _ _ _. rewrite iou_cells. split.
  - by rewrite length_fmap, length_seq.
  - apply Forall_fmap, Forall_forall. intros i _. simpl.
    apply smoothed_ratio_bounds; [apply intersect_le_union|apply smooth_1e_6_pos].
Qed.

Lemma iou_bounds_witness :
  let pred := Tensor [6]%nat [0; 1; 1; 1; 2; 0]%Z in
  let y_true := Tensor [6]%nat [0; 0; 1; 1; 2; 2]%Z in
  length (iou pred y_true 3 true smooth_1e_6) = 2%nat
  ∧ Forall (fun q => 0 < q ∧ q ≤ 1)%Qc (iou pred y_true 3 true smooth_1e_6).
Proof.
  intros pred y_true. apply (iou_bounds pred y_true 3 true); reflexivity.
Defined.

(** X2: with the smoothing term that [iou] has by default, a prediction
    that is the ground truth has intersection over union 1 for every class,
    also for the classes that the tensor does not contain. *)
Theorem iou_perfect (A : tensor Z) (classes : nat) (ignore_background : bool) :
  iou A A classes ignore_background smooth_1e_6
  = replicate (classes - (if ignore_background then 1 else 0)) 1%Qc.
Proof.
  rewrite iou_cells.
  erewrite list_fmap_ext.
  2:{ intros k i _.
      rewrite (count_pixels_ext (fun px => px.1 = Z.of_nat i ∨ px.2 = Z.of_nat i)
                 (fun px => px.1 = Z.of_nat i ∧ px.2 = Z.of_nat i)).
      - unfold Qcdiv. rewrite Qcmult_inv_r; [reflexivity|].
        apply smoothed_nonzero; [apply count_pixels_nonneg|apply smooth_1e_6_pos].
      - intros px Hpx. apply zip_diag_pixel in Hpx. split; [|tauto].
        intros [Hi|Hi]; split; congruence. }
  apply fmap_const_seq.
Qed.

(** X3: [iou] does not tell the prediction from the ground truth. *)
Theorem iou_symmetric (pred y_true : tensor Z) (classes : nat) (ignore_background : bool)
    (smooth : float) :
  iou pred y_true classes ignore_background smooth
  = iou y_true pred classes ignore_background smooth.
Proof.
  rewrite !iou_cells. apply list_fmap_ext. intros k i _.
  rewrite (count_pixels_swap (fun px => px.1 = Z.of_nat i ∧ px.2 = Z.of_nat i)
             (fun px => px.1 = Z.of_nat i ∧ px.2 = Z.of_nat i) pred y_true)
    by (intros; simpl; tauto).
  rewrite (count_pixels_swap (fun px => px.1 = Z.of_nat i ∨ px.2 = Z.of_nat i)
             (fun px => px.1 = Z.of_nat i ∨ px.2 = Z.of_nat i) pred y_true)
    by (intros; simpl; tauto).
  done.
Qed.

(** X4: on tensors of one shape, leaving the background out only drops the
    first number: the other classes get the numbers that they get when the
    background is kept. *)
Theorem iou_ignore_background (pred y_true : tensor Z) (classes : nat) (smooth : float) :
  shape pred = shape y_true -> well_formed pred -> well_formed y_true ->
  iou pred y_true classes true smooth = drop 1 (iou pred y_true classes false smooth).
Proof.
  intros _ _ _.
  rewrite !iou_cells, <- fmap_drop, drop_seq. simpl. by rewrite Nat.sub_0_r.
Qed.

Lemma iou_ignore_background_witness :
  let pred := Tensor [6]%nat [0; 1; 1; 1; 2; 0]%Z in
  let y_true := Tensor [6]%nat [0; 0; 1; 1; 2; 2]%Z in
  iou pred y_true 3 true smooth_1e_6 = drop 1 (iou pred y_true 3 false smooth_1e_6).
Proof.
  intros pred y_true. apply (iou_ignore_background pred y_true 3 smooth_1e_6); reflexivity.
Defined.

Section confusion_properties.
Local Open Scope Qc_scope.
Implicit Types (pred y_true : tensor Z) (classes : nat).

Lemma confusion_matrix_entry_outside pred y_true classes (i j : nat) :
  (classes ≤ i ∨ classes ≤ j)%nat ->
  entry (confusion_matrix pred y_true classes) i j = 0.
Proof.
  intros Hout. unfold entry. rewrite confusion_matrix_cells, list_lookup_fmap.
  destruct (decide (i < classes)%nat) as [Hi|Hi].
  - rewrite lookup_seq_lt by done. simpl.
    rewrite list_lookup_fmap, lookup_seq_ge by lia. done.
  - rewrite lookup_seq_ge by lia. done.
Qed.

(** With every value a class index, all the cells together count all the
    pixels, and the diagonal counts the pixels that are rightly predicted. *)
Lemma confusion_matrix_total_in_range pred y_true classes :
  length (data pred) = length (data y_true) ->
  in_range classes pred -> in_range classes y_true ->
  grand_total classes (confusion_matrix pred y_true classes)
  = of_int (Z.of_nat (length (data pred))).
Proof.
  intros Hlen Hp Ht. rewrite confusion_matrix_grand_total. f_equal.
  rewrite (count_pixels_ext _ (fun _ => True)).
  - rewrite count_pixels_all, length_zip. lia.
  - intros px Hpx. pose proof (in_range_pixels pred y_true classes px Hp Ht Hpx). tauto.
Qed.

Lemma confusion_matrix_trace pred y_true classes :
  in_range classes y_true ->
  sum_below classes (fun i => entry (confusion_matrix pred y_true classes) i i)
  = of_int (count_pixels (fun px => px.1 = px.2) pred y_true).
Proof.
  intros Ht.
  rewrite (sum_below_ext _ _ (fun i =>
    of_int (count_pixels (fun px => px.1 = px.2 ∧ px.2 = Z.of_nat i) pred y_true))).
  - rewrite (sum_below_count (fun px => px.1 = px.2) snd). f_equal.
    apply count_pixels_ext. intros [p t] Hpx. simpl. split; [tauto|]. intros Heq.
    split; [done|]. apply elem_of_zip_r, list_elem_of_In in Hpx.
    unfold in_range in Ht. rewrite Forall_forall in Ht. by apply Ht.
  - intros i Hi. rewrite confusion_matrix_entry by done. f_equal.
    apply count_pixels_ext. intros px _. split; intros [? ?]; split; congruence.
Qed.

Lemma arithmetic_mean_ext (n : nat) (f g : nat -> float) :
  (∀ i, (i < n)%nat -> f i = g i) -> arithmetic_mean n f = arithmetic_mean n g.
Proof.
  intros Hfg. destruct n as [|n]; [done|]. unfold arithmetic_mean.
  by rewrite (sum_below_ext _ f g).
Qed.

Lemma sum_below_ones (n : nat) : sum_below n (fun _ => 1) = of_int (Z.of_nat n).
Proof.
  induction n as [|n IH].
  - symmetry. apply Z2Qc_inj_0.
  - rewrite sum_below_S, IH. unfold of_int.
    rewrite Nat2Z.inj_succ, <- Z.add_1_r, Z2Qc_inj_add, Z2Qc_inj_1. done.
Qed.
End confusion_properties.

(** X5: swapping the prediction and the ground truth transposes the
    confusion matrix. *)
Theorem confusion_matrix_transpose (pred y_true : tensor Z) (classes i j : nat) :
  entry (confusion_matrix y_true pred classes) i j
  = entry (confusion_matrix pred y_true classes) j i.
Proof.
  destruct (decide (i < classes ∧ j < classes)%nat) as [[Hi Hj]|Hout].
  - rewrite !confusion_matrix_entry by done. f_equal.
    apply count_pixels_swap. intros a b. simpl. tauto.
  - rewrite !confusion_matrix_entry_outside by lia. done.
Qed.

(** X6: when every value is a class index, on tensors of at most the 2^24
    elements that the [float32] count of [pixel_accuracy] is exact for, the
    pixel accuracy is the trace of the confusion matrix over the total of
    its cells. *)
Theorem pixel_accuracy_trace (pred y_true : tensor Z) (classes : nat) :
  shape pred = shape y_true -> well_formed pred -> well_formed y_true ->
  in_range classes pred -> in_range classes y_true ->
  numel (shape pred) ≠ 0%nat -> float32_exact (shape pred) ->
  let m := confusion_matrix pred y_true classes in
  pixel_accuracy pred y_true
  = Ok (sum_below classes (fun i => entry m i i) / grand_total classes m)%Qc.
Proof.
  intros Hshape Hwp Hwt Hp Ht Hne _ m. subst m.
  pose proof (same_length pred y_true Hshape Hwp Hwt) as Hlen.
  rewrite pixel_accuracy_same_shape, truediv_nonzero by (done || lia).
  rewrite confusion_matrix_trace, confusion_matrix_total_in_range by done.
  by rewrite Hwp.
Qed.

Lemma pixel_accuracy_trace_witness :
  let pred := Tensor [6]%nat [0; 1; 1; 1; 2; 0]%Z in
  let y_true := Tensor [6]%nat [0; 0; 1; 1; 2; 2]%Z in
  let m := confusion_matrix pred y_true 3 in
  pixel_accuracy pred y_true
  = Ok (sum_below 3 (fun i => entry m i i) / grand_total 3 m)%Qc.
Proof.
  intros pred y_true.
  apply (pixel_accuracy_trace pred y_true 3); try reflexivity.
  - unfold in_range; simpl; repeat constructor; lia.
  - unfold in_range; simpl; repeat constructor; lia.
  - simpl. lia.
  - unfold float32_exact. simpl. lia.
Defined.

(** X7: the confusion matrix of a prediction that is the ground truth is
    diagonal: cell (i, i) counts the pixels of class [i], every other cell
    is 0. *)
Theorem confusion_matrix_perfect (A : tensor Z) (classes i j : nat) :
  (i < classes)%nat -> (j < classes)%nat ->
  entry (confusion_matrix A A classes) i j
  = if decide (i = j) then of_int (count_class A (Z.of_nat i)) else 0%Qc.
Proof.
  intros Hi Hj. rewrite confusion_matrix_entry by done. case_decide as Hij.
  - subst j. f_equal. rewrite <- (count_pixels_truth A A) by done.
    apply count_pixels_ext. intros px Hpx. apply zip_diag_pixel in Hpx.
    split; [tauto|]. intros Heq. split; congruence.
  - rewrite count_pixels_none; [unfold of_int; by rewrite Z2Qc_inj_0|].
    intros px Hpx [H2 H1]. apply zip_diag_pixel in Hpx. lia.
Qed.

Lemma confusion_matrix_perfect_witness :
  let A := Tensor [4]%nat [0; 2; 2; 5]%Z in
  entry (confusion_matrix A A 3) 2 2 = of_int (count_class A 2)
  ∧ entry (confusion_matrix A A 3) 0 2 = 0%Qc.
Proof.
  intros A. split.
  - apply (confusion_matrix_perfect A 3 2 2); lia.
  - apply (confusion_matrix_perfect A 3 0 2); lia.
Defined.

(** X8: when every predicted value is a class index, the mean class accuracy
    and the mean of the recalls that [precision_recall] reads off the
    confusion matrix, both with the smoothing term 1e-8 that [mean_accuracy]
    has by default, are one number in exact arithmetic: what the code
    computes for the two, in [float32] and in [float64], agrees within
    floating tolerance. *)
Theorem mean_accuracy_mean_recall (pred y_true : tensor Z) (classes : nat) :
  shape pred = shape y_true -> well_formed pred -> well_formed y_true ->
  in_range classes pred ->
  ∃ precision recall,
    precision_recall (confusion_matrix pred y_true classes) smooth_1e_8
    = Ok (precision, recall)
    ∧ mean_accuracy pred y_true classes smooth_1e_8 = np_mean recall.
Proof.
  intros Hshape Hwp Hwt Hp.
  pose proof (same_length pred y_true Hshape Hwp Hwt) as Hlen.
  eexists _, _. split.
  - apply precision_recall_square, confusion_matrix_square.
  - rewrite np_mean_fmap, mean_accuracy_cells by done.
    apply arithmetic_mean_ext. intros i Hi.
    rewrite confusion_matrix_entry, confusion_matrix_row_total by done.
    rewrite <- (count_pixels_truth pred) by done.
    rewrite (count_pixels_ext (fun px => px.2 = Z.of_nat i ∧ px.1 = Z.of_nat i)
               (fun px => px.1 = Z.of_nat i ∧ px.2 = Z.of_nat i)) by (intros; tauto).
    rewrite (count_pixels_ext
               (fun px => px.2 = Z.of_nat i ∧ (0 ≤ px.1 < Z.of_nat classes)%Z)
               (fun px => px.2 = Z.of_nat i)).
    + by rewrite !(Qcplus_comm smooth_1e_8).
    + intros [p t] Hpx. simpl. split; [tauto|]. intros Heq. split; [done|].
      apply elem_of_zip_l, list_elem_of_In in Hpx.
      unfold in_range in Hp. rewrite Forall_forall in Hp. by apply Hp.
Qed.

Lemma mean_accuracy_mean_recall_witness :
  let pred := Tensor [6]%nat [0; 1; 1; 1; 2; 0]%Z in
  let y_true := Tensor [6]%nat [0; 0; 1; 1; 7; 2]%Z in
  ∃ precision recall,
    precision_recall (confusion_matrix pred y_true 3) smooth_1e_8 = Ok (precision, recall)
    ∧ mean_accuracy pred y_true 3 smooth_1e_8 = np_mean recall.
Proof.
  intros pred y_true.
  apply (mean_accuracy_mean_recall pred y_true 3); try reflexivity.
  unfold in_range; simpl; repeat constructor; lia.
Defined.

(** X9: with the smoothing term that [mean_accuracy] has by default, over
    no class the mean class accuracy is NaN; over at least one class, a
    prediction that is the ground truth has mean class accuracy 1, whatever
    classes the tensor contains. *)
Theorem mean_accuracy_perfect (A : tensor Z) (classes : nat) :
  mean_accuracy A A classes smooth_1e_8
  = if decide (classes = 0%nat) then None else Some 1%Qc.
Proof.
  assert (0 < smooth_1e_8)%Qc as Hs by reflexivity.
  rewrite mean_accuracy_cells by done.
  rewrite (arithmetic_mean_ext _ _ (fun _ => 1%Qc)).
  - destruct classes as [|n]; [done|]. unfold arithmetic_mean.
    rewrite sum_below_ones, decide_False by done. f_equal.
    unfold Qcdiv. apply Qcmult_inv_r, of_int_nonzero. lia.
  - intros i _. rewrite <- (count_pixels_truth A A) by done.
    rewrite (count_pixels_ext (fun px => px.1 = Z.of_nat i ∧ px.2 = Z.of_nat i)
               (fun px => px.2 = Z.of_nat i)).
    + unfold Qcdiv. apply Qcmult_inv_r. rewrite Qcplus_comm.
      apply smoothed_nonzero; [apply count_pixels_nonneg|done].
    + intros px Hpx. apply zip_diag_pixel in Hpx. split; [tauto|].
      intros Heq. split; congruence.
Qed.


Section precision_recall_properties.
Local Open Scope Qc_scope.
Implicit Types (m : list (list float)) (n i : nat).

(** A loop whose turns can only raise [e], and that has a turn that raises
    [e] from every state, raises [e]. *)
Lemma for_each_raises {S A} (body : S -> A -> result S) (e : exn) (l : list A) (s : S) :
  (∀ s a, body s a = Raise e ∨ ∃ s', body s a = Ok s') ->
  (∃ a, a ∈ l ∧ ∀ s, body s a = Raise e) ->
  for_each body l s = Raise e.
Proof.
  intros Honly. revert s. induction l as [|a l IH]; intros s [b [Hb Hraise]].
  - by apply elem_of_nil in Hb.
  - simpl. destruct (Honly s a) as [->|[s' Hs']]; [done|].
    rewrite Hs'. simpl. apply elem_of_cons in Hb as [->|Hb].
    + by rewrite Hraise in Hs'.
    + apply IH. by exists b.
Qed.

Lemma smoothed_fraction_bounds (a b smooth : float) :
  0 ≤ a -> a ≤ b -> 0 < smooth ->
  0 < (a + smooth) / (b + smooth) ∧ (a + smooth) / (b + smooth) ≤ 1.
Proof.
  intros Ha Hle Hs.
  assert (0 < a + smooth) as Hnum by by apply Qcplus_nonneg_pos.
  assert (0 < b + smooth) as Hden.
  { apply Qcplus_nonneg_pos; [|done]. by etrans. }
  pose proof (Qcinv_pos _ Hden) as Hinv.
  unfold Qcdiv. split.
  - by apply Qcmult_pos_pos.
  - rewrite <- (Qcmult_inv_r (b + smooth)) by (by apply not_eq_sym, Qclt_not_eq).
    apply Qcmult_le_mono_nonneg_r; [by apply Qclt_le_weak|].
    by apply Qcplus_le_mono_r.
Qed.

Lemma sum_below_nonneg (n : nat) (f : nat -> float) :
  (∀ k, 0 ≤ f k) -> 0 ≤ sum_below n f.
Proof.
  intros Hf. induction n as [|n IH]; [done|].
  rewrite sum_below_S. by apply Qcplus_nonneg_nonneg.
Qed.

(** A sum of non-negative terms is at least each of its terms. *)
Lemma sum_below_term_le (n i : nat) (f : nat -> float) :
  (∀ k, 0 ≤ f k) -> (i < n)%nat -> f i ≤ sum_below n f.
Proof.
  intros Hf. induction n as [|n IH]; intros Hi; [lia|].
  rewrite sum_below_S. destruct (decide (i = n)) as [->|Hne].
  - rewrite <- (Qcplus_0_l (f n)) at 1.
    apply Qcplus_le_mono_r. by apply sum_below_nonneg.
  - rewrite <- (Qcplus_0_r (f i)).
    etrans; [|apply Qcplus_le_mono_l, Hf].
    apply Qcplus_le_mono_r. apply IH. lia.
Qed.

(** The cells of a confusion matrix are counts. *)
Lemma confusion_matrix_nonneg (pred y_true : tensor Z) (classes : nat) :
  Forall (Forall (fun x => 0 ≤ x)) (confusion_matrix pred y_true classes).
Proof.
  rewrite confusion_matrix_cells.
  apply Forall_fmap, Forall_forall. intros i _. simpl.
  apply Forall_fmap, Forall_forall. intros j _. simpl.
  unfold of_int. rewrite <- Z2Qc_inj_0.
  apply (proj1 (Z2Qc_inj_le _ _)), count_pixels_nonneg.
Qed.

Lemma entry_nonneg m (i j : nat) :
  Forall (Forall (fun x => 0 ≤ x)) m -> 0 ≤ entry m i j.
Proof.
  intros Hm. unfold entry.
  destruct (m !! i) as [row|] eqn:Hrow; simpl; [|done].
  destruct (row !! j) as [x|] eqn:Hx; simpl; [|done].
  rewrite Forall_lookup in Hm. specialize (Hm i row Hrow).
  rewrite Forall_lookup in Hm. by apply (Hm j).
Qed.
End precision_recall_properties.

(** X10: on a matrix that has more rows than columns, [precision_recall]
    raises [IndexError]: its loop runs over the rows and reads the diagonal. *)
Theorem precision_recall_tall (m : list (list float)) (columns : nat) (smooth : float) :
  Forall (fun row => length row = columns) m ->
  (columns < length m)%nat ->
  precision_recall m smooth = Raise IndexError.
Proof.
  intros Hrows Htall. unfold precision_recall.
  apply for_each_raises.
  - intros [precision recall] i.
    destruct (m !! i ≫= (.!! i)); simpl; [|by left].
    destruct (np_sum_axis0 m !! i); simpl; [|by left].
    destruct (np_sum_axis1 m !! i); simpl; [|by left].
    right. by eexists.
  - exists columns. split.
    + apply elem_of_seq. unfold range. lia.
    + intros [precision recall].
      destruct (lookup_lt_is_Some_2 m columns Htall) as [row Hrow].
      rewrite Hrow. simpl. rewrite Forall_lookup in Hrows.
      rewrite (lookup_ge_None_2 row columns); [reflexivity|].
      rewrite (Hrows _ _ Hrow). lia.
Qed.

Lemma precision_recall_tall_witness :
  precision_recall [[of_int 1; of_int 0]; [of_int 0; of_int 2]; [of_int 1; of_int 1]] smooth_1e_6
  = Raise IndexError.
Proof.
  apply (precision_recall_tall _ 2 smooth_1e_6).
  - repeat constructor.
  - simpl. lia.
Defined.

(** X11: on the confusion matrix of two tensors of one shape, and with the
    smoothing term that it has by default, [precision_recall] returns one
    precision and one recall for each class, and every one of them is in
    (0, 1]. *)
Theorem precision_recall_bounds (pred y_true : tensor Z) (classes : nat) :
  shape pred = shape y_true -> well_formed pred -> well_formed y_true ->
  ∃ precision recall,
    precision_recall (confusion_matrix pred y_true classes) smooth_1e_6
    = Ok (precision, recall)
    ∧ length precision = classes ∧ length recall = classes
    ∧ Forall (fun q => 0 < q ∧ q ≤ 1)%Qc precision
    ∧ Forall (fun q => 0 < q ∧ q ≤ 1)%Qc recall.
Proof.
  intros _ _ _.
  set (m := confusion_matrix pred y_true classes). set (n := classes).
  pose proof (confusion_matrix_square pred y_true classes) as Hsq. fold m in Hsq.
  pose proof (confusion_matrix_nonneg pred y_true classes) as Hm. fold m in Hm.
  pose proof smooth_1e_6_pos as Hs.
  eexists _, _. split; [by apply precision_recall_square|].
  split; [by rewrite length_fmap, length_seq|].
  split; [by rewrite length_fmap, length_seq|].
  split; apply Forall_fmap, Forall_forall; intros i Hi; apply in_seq in Hi; simpl.
  - apply smoothed_fraction_bounds; [by apply entry_nonneg| |done].
    apply (sum_below_term_le n i (fun k => entry m k i)); [|lia].
    intros k. by apply entry_nonneg.
  - apply smoothed_fraction_bounds; [by apply entry_nonneg| |done].
    apply (sum_below_term_le n i (fun k => entry m i k)); [|lia].
    intros k. by apply entry_nonneg.
Qed.

Lemma precision_recall_bounds_witness :
  let pred := Tensor [4]%nat [0; 1; 1; 1]%Z in
  let y_true := Tensor [4]%nat [0; 0; 1; 1]%Z in
  ∃ precision recall,
    precision_recall (confusion_matrix pred y_true 2) smooth_1e_6 = Ok (precision, recall)
    ∧ length precision = 2%nat ∧ length recall = 2%nat
    ∧ Forall (fun q => 0 < q ∧ q ≤ 1)%Qc precision
    ∧ Forall (fun q => 0 < q ∧ q ≤ 1)%Qc recall.
Proof.
  intros pred y_true. apply (precision_recall_bounds pred y_true 2); reflexivity.
Defined.

(** X12: on tensors of one shape [iou_confusion] does not raise: the matrix
    that it hands to [precision_recall] is square.  It returns one number
    for each class, less one when the background is left out. *)
Theorem iou_confusion_returns (pred y_true : tensor Z) (classes : nat)
    (ignore_background : bool) :
  shape pred = shape y_true -> well_formed pred -> well_formed y_true ->
  ∃ l, iou_confusion pred y_true classes ignore_background = Ok l
    ∧ length l = (classes - (if ignore_background then 1 else 0))%nat.
Proof.
  intros _ _ _.
  eexists. split; [apply iou_confusion_cells|].
  destruct ignore_background.
  - by rewrite length_drop, length_fmap, length_seq.
  - by rewrite length_fmap, length_seq, Nat.sub_0_r.
Qed.

Lemma iou_confusion_returns_witness :
  let pred := Tensor [6]%nat [0; 1; 1; 1; 2; 0]%Z in
  let y_true := Tensor [6]%nat [0; 0; 1; 1; 2; 2]%Z in
  ∃ l, iou_confusion pred y_true 3 true = Ok l ∧ length l = 2%nat.
Proof.
  intros pred y_true. apply (iou_confusion_returns pred y_true 3 true); reflexivity.
Defined.

Section pixel_accuracy_properties.
Local Open Scope Qc_scope.

Lemma Forall_zip_eq {A} (l k : list A) :
  length l = length k -> Forall (fun px => px.1 = px.2) (zip l k) -> l = k.
Proof.
  revert k. induction l as [|x l IH]; intros [|y k] Hlen Hall; try done.
  simpl in Hall. inversion Hall as [|? ? Hxy Hrest]; subst. simpl in Hxy.
  f_equal; [done|]. apply IH; [simpl in Hlen; lia|done].
Qed.

Lemma quotient_one (a b : float) : b ≠ 0 -> a / b = 1 -> a = b.
Proof.
  intros Hb Hq. rewrite <- (Qcmult_1_l b), <- Hq. unfold Qcdiv.
  by rewrite <- Qcmult_assoc, (Qcmult_comm (/ b)), Qcmult_inv_r, Qcmult_1_r.
Qed.
End pixel_accuracy_properties.

(** X13: [pixel_accuracy] does not tell the prediction from the ground
    truth, in what it returns and in what it raises. *)
Theorem pixel_accuracy_symmetric (A B : tensor Z) :
  pixel_accuracy A B = pixel_accuracy B A.
Proof.
  destruct (decide (shape A = shape B)) as [Hshape|Hshape].
  - rewrite (pixel_accuracy_same_shape A B), (pixel_accuracy_same_shape B A) by done.
    rewrite Hshape. do 2 f_equal. apply count_pixels_swap. intros a b. simpl.
    split; congruence.
  - unfold pixel_accuracy. rewrite !decide_False; [done| |done]. congruence.
Qed.

(** X14: on tensors of one shape that have an element, and at most the
    2^24 elements that the [float32] count is exact for, the pixel accuracy
    is 1 exactly when the two tensors hold the same values. *)
Theorem pixel_accuracy_one_iff (A B : tensor Z) :
  shape A = shape B -> well_formed A -> well_formed B -> numel (shape A) ≠ 0%nat ->
  float32_exact (shape A) ->
  pixel_accuracy A B = Ok 1%Qc <-> data A = data B.
Proof.
  intros Hshape HA HB Hne _.
  pose proof (same_length A B Hshape HA HB) as Hlen.
  rewrite pixel_accuracy_same_shape, truediv_nonzero by (done || lia).
  unfold count_pixels. split.
  - intros Hone.
    apply (f_equal (fun r => match r with Ok q => q | Raise _ => 0%Qc end)) in Hone.
    cbv beta iota in Hone.
    apply quotient_one in Hone; [|apply of_int_nonzero; lia].
    apply Z2Qc_inj in Hone. apply Forall_zip_eq; [done|].
    apply (filter_length_all (fun px : Z * Z => px.1 = px.2)).
    rewrite length_zip. unfold well_formed in HA. lia.
  - intros Heq. f_equal.
    rewrite (proj2 (filter_length_all (fun px : Z * Z => px.1 = px.2) _)).
    + rewrite length_zip, <- Heq, Nat.min_id, HA.
      unfold Qcdiv. apply Qcmult_inv_r, of_int_nonzero. lia.
    + rewrite <- Heq. apply Forall_forall. intros px Hpx.
      apply list_elem_of_In in Hpx. by apply zip_diag_pixel in Hpx.
Qed.

Lemma pixel_accuracy_one_iff_witness :
  let A := Tensor [2; 2]%nat [0; 1; 2; 1]%Z in
  let B := Tensor [2; 2]%nat [0; 1; 2; 2]%Z in
  pixel_accuracy A B ≠ Ok 1%Qc.
Proof.
  intros A B Hone.
  apply (pixel_accuracy_one_iff A B) in Hone;
    [discriminate Hone|reflexivity..|simpl; lia|unfold float32_exact; simpl; lia].
Defined.

(** * Further properties of the decoding *)

Section decoding_properties.
Local Open Scope Z_scope.

(** Decoding reads the first three channels of an image that has them. *)
Lemma voc_label_indices_cells_ge (img : image) (m : gmap Z Z) :
  (3 ≤ dim0 img)%nat ->
  ∃ lbl, voc_label_indices img (LongTensor (256 ^ 3) m) = Ok lbl
    ∧ rows lbl = dim1 img ∧ cols lbl = dim2 img
    ∧ ∀ h w, at2 lbl h w = default 0 (m !! color_code (pixel_color img h w)).
Proof.
  intros Hrgb. unfold voc_label_indices, select_last.
  cbn [permute_1_2_0 astype_int32 dim0 dim1 dim2 at3].
  rewrite !decide_True by lia. cbn [mbind result_bind at3].
  assert (∀ h w,
    wrap32 (wrap32 (wrap32 (wrap32 (byte_val (at3 img 0 h w) * 256)
      + byte_val (at3 img 1 h w)) * 256) + byte_val (at3 img 2 h w))
    = color_code (pixel_color img h w)) as Hidx.
  { intros h w. apply wrap32_encode; apply byte_val_range. }
  assert (∀ h w, 0 ≤ color_code (pixel_color img h w) < 256 ^ 3) as Hcode.
  { intros h w. apply encode_range; apply byte_val_range. }
  unfold index_long. rewrite (proj2 (all2_true _ _)).
  - eexists. split; [done|]. cbn [rows cols at2 add32 mul32 size cells].
    split; [done|]. split; [done|].
    intros h w. rewrite Hidx, normalize_index_range by apply Hcode. done.
  - intros h w _ _. cbn [at2 add32 mul32 size].
    rewrite Hidx, normalize_index_range by apply Hcode.
    by apply bool_decide_eq_true_2.
Qed.

(** The class index of a pixel: the position of its colour in the list, or
    0 when the colour is not in the list. *)
Lemma decoded_pixel (img : image) (h w : nat) :
  let v := default 0
    (fold_left (fun m ic => <[color_code ic.2 := ic.1]> m) (enumerate VOC_COLORMAP)
       (∅ : gmap Z Z) !! color_code (pixel_color img h w)) in
  (∃ i : nat, VOC_COLORMAP !! i = Some (pixel_color img h w) ∧ v = Z.of_nat i)
  ∨ ((pixel_color img h w ∉ VOC_COLORMAP) ∧ v = 0).
Proof.
  intros v. subst v.
  destruct (decide (pixel_color img h w ∈ VOC_COLORMAP)) as [Hknown|Hunknown].
  - left. destruct (decoded_known_pixel img h w Hknown) as (i & Hi & Hcell). by exists i.
  - right. split; [done|].
    pose proof (unknown_color_index (at3 img 0 h w) (at3 img 1 h w) (at3 img 2 h w) _
                  eq_refl Hunknown) as Hcell.
    rewrite getitem_cell in Hcell by (apply encode_range; apply byte_val_range).
    exact (f_equal (fun r => match r with Ok z => z | Raise _ => 0 end) Hcell).
Qed.
End decoding_properties.

(** X15: an image that has fewer than three channels cannot be decoded:
    reading a channel that is missing raises [IndexError], whatever the
    table. *)
Theorem voc_label_indices_few_channels (img : image) (table : long_tensor) :
  (dim0 img < 3)%nat ->
  voc_label_indices img table = Raise IndexError.
Proof.
  unfold voc_label_indices, select_last.
  cbn [permute_1_2_0 astype_int32 dim0 dim1 dim2 at3].
  generalize (dim0 img). intros [|[|[|n]]] Hfew; [reflexivity..|lia].
Qed.

Lemma voc_label_indices_few_channels_witness :
  voc_label_indices (Array3 1 2 2 (fun _ _ _ => "000"%byte)) (torch_zeros (256 ^ 3))
  = Raise IndexError.
Proof.
  apply (voc_label_indices_few_channels (Array3 1 2 2 (fun _ _ _ => "000"%byte))).
  simpl. lia.
Defined.

(** X16: an image that has at least three channels is always decoded, with
    the table of [voc_colormap2label]: the result has the height and the
    width of the image and every class index in it is one of the 21
    classes. *)
Theorem voc_label_indices_range (img : image) (table : long_tensor) :
  voc_colormap2label = Ok table -> (3 ≤ dim0 img)%nat ->
  ∃ lbl, voc_label_indices img table = Ok lbl
    ∧ rows lbl = dim1 img ∧ cols lbl = dim2 img
    ∧ ∀ h w, (0 ≤ at2 lbl h w < 21)%Z.
Proof.
  intros Htable Hrgb.
  assert (table = LongTensor (256 ^ 3)
    (fold_left (fun m ic => <[color_code ic.2 := ic.1]> m) (enumerate VOC_COLORMAP) ∅))
    as -> by (pose proof voc_colormap2label_ok; congruence).
  destruct (voc_label_indices_cells_ge img
    (fold_left (fun m ic => <[color_code ic.2 := ic.1]> m) (enumerate VOC_COLORMAP) ∅)
    Hrgb) as (lbl & Hlbl & Hrows & Hcols & Hcells).
  exists lbl. split; [done|]. split; [done|]. split; [done|].
  intros h w. rewrite Hcells.
  destruct (decoded_pixel img h w) as [(i & Hi & ->)|[_ ->]]; [|lia].
  apply lookup_lt_Some in Hi. simpl in Hi. lia.
Qed.

Lemma voc_label_indices_range_witness :
  ∃ table lbl,
    voc_colormap2label = Ok table
    ∧ voc_label_indices (Array3 4 1 1 (fun _ _ _ => "128"%byte)) table = Ok lbl
    ∧ (0 ≤ at2 lbl 0 0 < 21)%Z.
Proof.
  destruct (voc_label_indices_range (Array3 4 1 1 (fun _ _ _ => "128"%byte)) _
              voc_colormap2label_ok) as (lbl & Hlbl & _ & _ & Hrange).
  - simpl. lia.
  - eexists _, lbl. split; [exact voc_colormap2label_ok|]. split; [exact Hlbl|].
    apply Hrange.
Defined.

(** X17: decoding an image of at least three channels and colouring the
    result with [label2image] never raises; a pixel whose colour is in
    [VOC_COLORMAP] gets its colour back, and every other pixel comes back
    black, the colour of the background. *)
Theorem label2image_decoded (img : image) (table : long_tensor) :
  voc_colormap2label = Ok table -> (3 ≤ dim0 img)%nat ->
  ∃ lbl out,
    voc_label_indices img table = Ok lbl
    ∧ label2image lbl = Ok out
    ∧ dim0 out = dim1 img ∧ dim1 out = dim2 img ∧ dim2 out = 3%nat
    ∧ ∀ h w c, (c < 3)%nat ->
        at3 out h w c
        = if decide (pixel_color img h w ∈ VOC_COLORMAP)
          then byte_val (at3 img c h w) else 0%Z.
Proof.
  intros Htable Hrgb.
  assert (table = LongTensor (256 ^ 3)
    (fold_left (fun m ic => <[color_code ic.2 := ic.1]> m) (enumerate VOC_COLORMAP) ∅))
    as -> by (pose proof voc_colormap2label_ok; congruence).
  destruct (voc_label_indices_cells_ge img
    (fold_left (fun m ic => <[color_code ic.2 := ic.1]> m) (enumerate VOC_COLORMAP) ∅)
    Hrgb) as (lbl & Hlbl & Hrows & Hcols & Hcells).
  exists lbl. unfold label2image.
  rewrite (proj2 (all2_true _ _)).
  - eexists. split; [done|]. split; [done|]. cbn [dim0 dim1 dim2 at3].
    split; [done|]. split; [done|]. split; [done|].
    intros h w c Hc. rewrite Hcells.
    destruct (decoded_pixel img h w) as [(i & Hi & ->)|[Hunknown ->]].
    + rewrite (label2image_cell i _ c Hi), decide_True
        by (apply list_elem_of_lookup; by exists i).
      by destruct c as [|[|[|c]]]; [| | |lia].
    + rewrite decide_False by done.
      by destruct c as [|[|[|c]]]; [| | |lia].
  - intros h w _ _. rewrite Hcells. apply bool_decide_eq_true_2.
    destruct (decoded_pixel img h w) as [(i & Hi & ->)|[_ ->]].
    + apply lookup_lt_Some in Hi. rewrite normalize_index_range by lia. done.
    + done.
Qed.

Lemma label2image_decoded_witness :
  let img : image :=
    Array3 3 1 2 (fun c h w =>
      match w, c with
      | O, O => "128"%byte
      | O, _ => "000"%byte
      | _, _ => "007"%byte
      end) in
  ∃ table lbl out,
    voc_colormap2label = Ok table
    ∧ voc_label_indices img table = Ok lbl
    ∧ label2image lbl = Ok out
    ∧ at3 out 0 0 0 = 128%Z ∧ at3 out 0 1 0 = 0%Z.
Proof.
  intros img.
  destruct (label2image_decoded img _ voc_colormap2label_ok)
    as (lbl & out & Hlbl & Hout & _ & _ & _ & Hcolors).
  - simpl. lia.
  - eexists _, lbl, out. split; [exact voc_colormap2label_ok|].
    split; [exact Hlbl|]. split; [exact Hout|]. split.
    + rewrite (Hcolors 0%nat 0%nat 0%nat) by lia. reflexivity.
    + rewrite (Hcolors 0%nat 1%nat 0%nat) by lia. reflexivity.
Defined.

Section label2image_properties.
Local Open Scope Z_scope.

Lemma normalize_index_is_Some (n k : Z) :
  is_Some (normalize_index n k) <-> - n ≤ k < n.
Proof.
  unfold normalize_index. repeat case_decide; split; intros Hk; try lia; try done.
  all: by destruct Hk.
Qed.

(** A valid index, counted from the end when it is negative. *)
Lemma normalize_index_mod (n k : Z) :
  - n ≤ k < n -> normalize_index n k = Some (k mod n).
Proof.
  intros Hk. unfold normalize_index. repeat case_decide; try lia.
  - by rewrite Z.mod_small.
  - f_equal. rewrite <- (Z.mod_small (k + n) n) by lia.
    by rewrite <- Z.add_mod_idemp_r, Z.mod_same, Z.add_0_r by lia.
Qed.

Lemma VOC_COLORMAP_row (i c : nat) :
  (i < 21)%nat -> (c < 3)%nat -> is_Some (VOC_COLORMAP !! i ≫= (.!! c)).
Proof.
  intros Hi Hc. destruct (lookup_lt_is_Some_2 VOC_COLORMAP i) as [row Hrow]; [done|].
  rewrite Hrow. simpl. apply lookup_lt_is_Some_2.
  pose proof VOC_COLORMAP_colors as Hall. rewrite Forall_lookup in Hall.
  destruct (Hall i row Hrow) as [-> _]. done.
Qed.
End label2image_properties.

(** X18: [label2image] raises [IndexError] as soon as one class index is
    outside [-21, 21). *)
Theorem label2image_out_of_range (pred : array2 Z) (h w : nat) :
  (h < rows pred)%nat -> (w < cols pred)%nat ->
  ¬ (-21 ≤ at2 pred h w < 21)%Z ->
  label2image pred = Raise IndexError.
Proof.
  intros Hh Hw Hout. unfold label2image.
  destruct (all2 _ pred) eqn:Hall; [|done].
  exfalso. apply Hout. rewrite all2_true in Hall.
  specialize (Hall h w Hh Hw). apply bool_decide_eq_true_1 in Hall.
  by apply normalize_index_is_Some in Hall.
Qed.

Lemma label2image_out_of_range_witness :
  label2image (Array2 1 2 (fun _ w => if decide (w = 0%nat) then 3 else 21)%Z)
  = Raise IndexError.
Proof.
  apply (label2image_out_of_range _ 0 1); simpl; lia.
Defined.

(** X19: when every class index is in [-21, 21), [label2image] returns an
    array of height by width by 3 that holds, at every pixel, the row of
    [VOC_COLORMAP] at the class index of the pixel; a negative index counts
    from the end of the table. *)
Theorem label2image_colors (pred : array2 Z) :
  (∀ h w, (h < rows pred)%nat -> (w < cols pred)%nat -> (-21 ≤ at2 pred h w < 21)%Z) ->
  ∃ out, label2image pred = Ok out
    ∧ dim0 out = rows pred ∧ dim1 out = cols pred ∧ dim2 out = 3%nat
    ∧ ∀ h w c, (h < rows pred)%nat -> (w < cols pred)%nat -> (c < 3)%nat ->
        Some (at3 out h w c)
        = VOC_COLORMAP !! Z.to_nat (at2 pred h w mod 21) ≫= (.!! c).
Proof.
  intros Hrange. unfold label2image. rewrite (proj2 (all2_true _ _)).
  - eexists. split; [done|]. cbn [dim0 dim1 dim2 at3].
    split; [done|]. split; [done|]. split; [done|].
    intros h w c Hh Hw Hc. specialize (Hrange h w Hh Hw).
    change (Z.of_nat (length VOC_COLORMAP)) with 21%Z.
    rewrite normalize_index_mod by done. cbn [mbind option_bind].
    destruct (VOC_COLORMAP_row (Z.to_nat (at2 pred h w mod 21)) c) as [v Hv]; [|done|].
    + pose proof (Z.mod_pos_bound (at2 pred h w) 21). lia.
    + rewrite Hv. transitivity (Some (default 0%Z (Some v))); [|done].
      do 2 f_equal. exact Hv.
  - intros h w Hh Hw. apply bool_decide_eq_true_2, normalize_index_is_Some.
    by apply Hrange.
Qed.

Lemma label2image_colors_witness :
  ∃ out, label2image (Array2 1 2 (fun _ w => if decide (w = 0%nat) then 1 else -1)%Z) = Ok out
    ∧ at3 out 0 0 0 = 128%Z ∧ at3 out 0 1 1 = 64%Z ∧ at3 out 0 1 2 = 128%Z.
Proof.
  destruct (label2image_colors
              (Array2 1 2 (fun _ w => if decide (w = 0%nat) then 1 else -1)%Z))
    as (out & Hout & _ & _ & _ & Hcolors).
  - intros h w Hh Hw. simpl. case_decide; lia.
  - exists out. split; [exact Hout|].
    assert (∀ x y : Z, Some x = Some y -> x = y) as Hinj by (intros x y Hxy; congruence).
    repeat split; apply Hinj; rewrite Hcolors by (simpl; lia); reflexivity.
Defined.

(** * One-hot encoding *)

Section one_hot_properties.
Local Open Scope Qc_scope.

Lemma append_loop {A B} (f : A -> B) (l : list A) (acc : list B) :
  fold_left (fun rows k => rows ++ [f k]) l acc = acc ++ (f <$> l).
Proof.
  revert acc. induction l as [|a l IH]; intros acc; simpl.
  - by rewrite app_nil_r.
  - by rewrite IH, <- (assoc_L (++)).
Qed.

Lemma torch_eye_row (n i : nat) :
  (i < n)%nat ->
  torch_eye n !! i = Some ((fun j => if decide (i = j) then 1 else 0) <$> seq 0 n).
Proof. intros Hi. unfold torch_eye. by rewrite list_lookup_fmap, lookup_seq_lt. Qed.

(** The row that [one_hot] writes for the index [k]. *)
Lemma one_hot_rows (x : tensor Z) (classes : nat) :
  Forall (fun k => - Z.of_nat classes ≤ k < Z.of_nat classes)%Z (data x) ->
  one_hot x classes
  = Ok (Tensor (shape x ++ [classes])
          (concat ((fun k => (fun j => if decide (Z.to_nat (k mod Z.of_nat classes) = j)
                                      then 1 else 0) <$> seq 0 classes) <$> data x))).
Proof.
  intros Hrange. unfold one_hot, index_rows.
  rewrite (for_each_ok _ (fun rows k => rows ++
    [(fun j => if decide (Z.to_nat (k mod Z.of_nat classes) = j) then 1 else 0)
       <$> seq 0 classes])).
  - by rewrite append_loop.
  - intros rows k Hk. rewrite Forall_forall in Hrange.
    apply list_elem_of_In, Hrange in Hk.
    assert (length (torch_eye classes) = classes) as ->
      by (unfold torch_eye; by rewrite length_fmap, length_seq).
    rewrite normalize_index_mod by done. cbn [subscript mbind result_bind].
    rewrite torch_eye_row; [done|].
    pose proof (Z.mod_pos_bound k (Z.of_nat classes)). lia.
Qed.

Lemma numel_app (s : list nat) (n : nat) : numel (s ++ [n]) = (numel s * n)%nat.
Proof.
  unfold numel. induction s as [|d s IH]; simpl; [lia|]. rewrite IH. lia.
Qed.

Lemma length_concat_uniform {A} (rows : list (list A)) (n : nat) :
  Forall (fun row => length row = n) rows ->
  length (concat rows) = (length rows * n)%nat.
Proof.
  induction 1 as [|row rows Hrow _ IH]; simpl; [done|].
  rewrite length_app, IH, Hrow. done.
Qed.

Lemma lookup_concat_uniform {A} (rows : list (list A)) (n p c : nat) (row : list A) :
  Forall (fun row => length row = n) rows ->
  rows !! p = Some row -> (c < n)%nat ->
  concat rows !! (p * n + c)%nat = row !! c.
Proof.
  intros Hrows. revert p. induction Hrows as [|r rows Hr _ IH]; intros p Hp Hc; [done|].
  destruct p as [|p]; simpl in *.
  - injection Hp as ->. by rewrite lookup_app_l by lia.
  - rewrite lookup_app_r by lia. rewrite <- (IH p Hp Hc). f_equal. lia.
Qed.

(** A row of the identity matrix adds up to 1. *)
Lemma indicator_sum (i a n : nat) :
  foldr Qcplus 0 ((fun j => if decide (i = j) then 1 else 0) <$> seq a n)
  = if decide (a ≤ i < a + n)%nat then 1 else 0.
Proof.
  revert a. induction n as [|n IH]; intros a; simpl.
  - by rewrite decide_False by lia.
  - rewrite IH. repeat case_decide; try lia; ring.
Qed.

Lemma foldr_concat_sum (rows : list (list float)) :
  foldr Qcplus 0 (concat rows) = foldr (fun row acc => foldr Qcplus 0 row + acc) 0 rows.
Proof.
  induction rows as [|row rows IH]; simpl; [done|].
  rewrite foldr_app, <- IH.
  generalize (foldr Qcplus 0 (concat rows)). intros acc.
  induction row as [|x row IHrow]; simpl; [by rewrite Qcplus_0_l|].
  rewrite IHrow. ring.
Qed.
End one_hot_properties.

(** X20: when every index is in [-classes, classes), [one_hot] returns a
    tensor with one more dimension, of size [classes]; it is well formed when
    its argument is, and its row for an element [k] holds 1 at position [k]
    (counted from the end when [k] is negative) and 0 elsewhere. *)
Theorem one_hot_entries (x : tensor Z) (classes : nat) :
  well_formed x ->
  Forall (fun k => - Z.of_nat classes ≤ k < Z.of_nat classes)%Z (data x) ->
  ∃ t, one_hot x classes = Ok t
    ∧ shape t = shape x ++ [classes]
    ∧ well_formed t
    ∧ ∀ p c k, data x !! p = Some k -> (c < classes)%nat ->
        data t !! (p * classes + c)%nat
        = Some (if decide (Z.to_nat (k mod Z.of_nat classes) = c) then 1%Qc else 0%Qc).
Proof.
  intros Hwf Hrange. eexists. split; [by apply one_hot_rows|]. cbn [shape data].
  assert (Forall (fun row : list float => length row = classes)
    ((fun k => (fun j => if decide (Z.to_nat (k mod Z.of_nat classes) = j)
                         then 1%Qc else 0%Qc) <$> seq 0 classes) <$> data x)) as Hrows.
  { apply Forall_fmap, Forall_forall. intros k _. simpl.
    by rewrite length_fmap, length_seq. }
  split; [done|]. split.
  - unfold well_formed. cbn [shape data].
    rewrite (length_concat_uniform _ classes Hrows), length_fmap, numel_app.
    by rewrite Hwf.
  - intros p c k Hk Hc.
    erewrite (lookup_concat_uniform _ classes p c); [|done| |done].
    2:{ by rewrite list_lookup_fmap, Hk. }
    by rewrite list_lookup_fmap, lookup_seq_lt.
Qed.

Lemma one_hot_entries_witness :
  ∃ t, one_hot (Tensor [2]%nat [1; -1]%Z) 3 = Ok t
    ∧ shape t = [2; 3]%nat
    ∧ data t !! 1%nat = Some 1%Qc
    ∧ data t !! 5%nat = Some 1%Qc
    ∧ data t !! 4%nat = Some 0%Qc.
Proof.
  destruct (one_hot_entries (Tensor [2]%nat [1; -1]%Z) 3) as (t & Ht & Hshape & _ & Hcells).
  - reflexivity.
  - repeat constructor; lia.
  - exists t. split; [exact Ht|]. split; [exact Hshape|].
    split; [exact (Hcells 0%nat 1%nat 1%Z eq_refl ltac:(lia))|].
    split; [exact (Hcells 1%nat 2%nat (-1)%Z eq_refl ltac:(lia))|].
    exact (Hcells 1%nat 1%nat (-1)%Z eq_refl ltac:(lia)).
Defined.

(** X21: the entries of a one-hot tensor add up to the number of elements
    that were encoded: each row holds exactly one 1. *)
Theorem one_hot_sum (x : tensor Z) (classes : nat) :
  Forall (fun k => - Z.of_nat classes ≤ k < Z.of_nat classes)%Z (data x) ->
  ∃ t, one_hot x classes = Ok t ∧ sum_item t = of_int (Z.of_nat (length (data x))).
Proof.
  intros Hrange. eexists. split; [by apply one_hot_rows|].
  unfold sum_item. cbn [data]. rewrite foldr_concat_sum.
  induction Hrange as [|k l Hk _ IH].
  - symmetry. apply Z2Qc_inj_0.
  - rewrite fmap_cons. cbn [foldr length]. rewrite IH, indicator_sum.
    pose proof (Z.mod_pos_bound k (Z.of_nat classes)).
    rewrite decide_True by lia. unfold of_int.
    rewrite Nat2Z.inj_succ, <- Z.add_1_l, Z2Qc_inj_add, Z2Qc_inj_1. done.
Qed.

Lemma one_hot_sum_witness :
  ∃ t, one_hot (Tensor [3]%nat [0; 2; -1]%Z) 3 = Ok t ∧ sum_item t = of_int 3.
Proof.
  apply (one_hot_sum (Tensor [3]%nat [0; 2; -1]%Z) 3). repeat constructor; lia.
Defined.

(** X22: [one_hot] raises [IndexError] as soon as one index is outside
    [-classes, classes); with no class at all, every index is. *)
Theorem one_hot_out_of_range (x : tensor Z) (classes : nat) (k : Z) :
  k ∈ data x -> ¬ (- Z.of_nat classes ≤ k < Z.of_nat classes)%Z ->
  one_hot x classes = Raise IndexError.
Proof.
  intros Hk Hout. unfold one_hot, index_rows.
  rewrite (for_each_raises _ IndexError); [done| |].
  - intros rows j.
    destruct (normalize_index _ j) as [j'|]; simpl; [|by left].
    destruct (torch_eye classes !! Z.to_nat j'); simpl; [|by left].
    right. by eexists.
  - exists k. split; [done|]. intros rows.
    destruct (normalize_index _ k) as [k'|] eqn:Hnorm; simpl; [|done].
    exfalso. apply Hout.
    assert (is_Some (normalize_index (Z.of_nat (length (torch_eye classes))) k)) as Hsome
      by by eexists.
    apply normalize_index_is_Some in Hsome.
    unfold torch_eye in Hsome. by rewrite length_fmap, length_seq in Hsome.
Qed.

Lemma one_hot_out_of_range_witness :
  one_hot (Tensor [2]%nat [0; 3]%Z) 3 = Raise IndexError
  ∧ one_hot (Tensor [1]%nat [0]%Z) 0 = Raise IndexError.
Proof.
  split.
  - apply (one_hot_out_of_range _ 3 3); [|lia]. apply list_elem_of_In. simpl. tauto.
  - apply (one_hot_out_of_range _ 0 0); [|lia]. apply list_elem_of_In. simpl. tauto.
Defined.

(** * The dataset and the evaluation loop *)

(** X23: [read_voc_images] returns as many photos as masks, and pairing
    them index by index gives back the pairs of the split, in the order of
    the manifest. *)
Theorem read_voc_images_zip (voc_dir : voc_directory) (is_train : bool) :
  let images := if is_train then train_txt voc_dir else val_txt voc_dir in
  length (read_voc_images voc_dir is_train).1 = length images
  ∧ length (read_voc_images voc_dir is_train).2 = length images
  ∧ zip (read_voc_images voc_dir is_train).1 (read_voc_images voc_dir is_train).2 = images.
Proof.
  intros images. rewrite read_voc_images_split. fold images. cbn [fst snd].
  rewrite !length_fmap. split; [done|]. split; [done|]. apply zip_fst_snd.
Qed.

(** X24: with a normalisation that returns, the constructor returns a
    dataset; every mask that it keeps is at least as high and as wide as the
    crop, and the length of the dataset is the number of photos of the split
    that are, whatever the size of their masks. *)
Theorem VOCSegDataset_init_sizes (transform : array3 float -> array3 float)
    (is_train : bool) (crop_size : nat * nat) (voc_dir : voc_directory) :
  let pairs := if is_train then train_txt voc_dir else val_txt voc_dir in
  ∃ ds, VOCSegDataset.init transform is_train crop_size voc_dir = Ok ds
    ∧ Forall (fun label : image =>
        (crop_size.1 ≤ dim1 label)%nat ∧ (crop_size.2 ≤ dim2 label)%nat)
        (VOCSegDataset.labels ds)
    ∧ VOCSegDataset_len ds
      = length (filter (fun fl : image * image =>
          (crop_size.1 ≤ dim1 fl.1)%nat ∧ (crop_size.2 ≤ dim2 fl.1)%nat) pairs)
    ∧ (VOCSegDataset_len ds ≤ length pairs)%nat.
Proof.
  intros pairs.
  unfold VOCSegDataset.init. rewrite read_voc_images_split. fold pairs.
  rewrite voc_colormap2label_ok. eexists. split; [done|].
  unfold VOCSegDataset_len. cbn [VOCSegDataset.features VOCSegDataset.labels].
  unfold VOCSegDataset.filter.
  rewrite (filter_photos (fun img : image =>
    (crop_size.1 ≤ dim1 img)%nat ∧ (crop_size.2 ≤ dim2 img)%nat) pairs).
  rewrite !length_fmap. split; [|split; [done|apply filter_length_le]].
  apply Forall_forall. intros label Hlabel.
  apply list_elem_of_In, list_elem_of_filter in Hlabel. tauto.
Qed.

Section evaluation_properties.
Context {X P : Type}.
Variable model : X -> P.
Variable loss_fn : P -> tensor Z -> float.
Variable argmax1 : P -> tensor Z.
Local Open Scope Qc_scope.

Lemma pixel_accuracy_self (A : tensor Z) :
  well_formed A -> numel (shape A) ≠ 0%nat -> pixel_accuracy A A = Ok 1.
Proof.
  intros HA Hne.
  rewrite pixel_accuracy_same_shape, truediv_nonzero by (done || lia).
  f_equal. rewrite (count_pixels_ext _ (fun _ => True)).
  - rewrite count_pixels_all, length_zip, Nat.min_id, HA.
    unfold Qcdiv. apply Qcmult_inv_r, of_int_nonzero. lia.
  - intros px Hpx. by apply zip_diag_pixel in Hpx.
Qed.

Lemma mean_accuracy_self (A : tensor Z) (n : nat) (smooth : float) :
  0 < smooth -> mean_accuracy A A (S n) smooth = Some 1.
Proof.
  intros Hs. rewrite mean_accuracy_cells by done.
  rewrite (arithmetic_mean_ext _ _ (fun _ => 1)).
  - unfold arithmetic_mean. rewrite sum_below_ones. f_equal.
    unfold Qcdiv. apply Qcmult_inv_r, of_int_nonzero. lia.
  - intros i _. rewrite <- (count_pixels_truth A A) by done.
    rewrite (count_pixels_ext (fun px => px.1 = Z.of_nat i ∧ px.2 = Z.of_nat i)
               (fun px => px.2 = Z.of_nat i)).
    + unfold Qcdiv. apply Qcmult_inv_r. rewrite Qcplus_comm.
      apply smoothed_nonzero; [apply count_pixels_nonneg|done].
    + intros px Hpx. apply zip_diag_pixel in Hpx. split; [tauto|].
      intros Heq. split; congruence.
Qed.

(** The sums that the loop of [test] holds after batches that are all
    rightly predicted. *)
Lemma test_loop_perfect (dataloader : list (X * tensor Z)) (test_loss pixel_acc mean_acc : float) :
  Forall (fun batch : X * tensor Z =>
    argmax1 (model batch.1) = batch.2 ∧ well_formed batch.2
    ∧ numel (shape batch.2) ≠ 0%nat) dataloader ->
  ∃ loss,
    for_each (test_batch model loss_fn argmax1) dataloader
      (test_loss, pixel_acc, Some mean_acc)
    = Ok (loss, pixel_acc + of_int (Z.of_nat (length dataloader)),
          Some (mean_acc + of_int (Z.of_nat (length dataloader)))).
Proof.
  intros Hall. revert test_loss pixel_acc mean_acc.
  induction Hall as [|[x y] l (Hpred & Hwf & Hne) _ IH]; intros test_loss pixel_acc mean_acc.
  - exists test_loss. cbn [for_each length]. change (Z.of_nat 0) with 0%Z.
    unfold of_int. by rewrite Z2Qc_inj_0, !Qcplus_0_r.
  - simpl in Hpred, Hwf, Hne. cbn [for_each test_batch]. rewrite Hpred.
    rewrite pixel_accuracy_self by done. cbn [mbind result_bind].
    rewrite mean_accuracy_self by reflexivity. cbn [mbind option_bind].
    destruct (IH (test_loss + loss_fn (model x) y) (pixel_acc + 1) (mean_acc + 1))
      as [loss Hloss].
    exists loss. rewrite Hloss. cbn [length]. unfold of_int.
    rewrite Nat2Z.inj_succ, <- Z.add_1_l, Z2Qc_inj_add, Z2Qc_inj_1.
    by rewrite !Qcplus_assoc.
Qed.
End evaluation_properties.

Section evaluation_bounds.
Context {X P : Type}.
Variable model : X -> P.
Variable loss_fn : P -> tensor Z -> float.
Variable argmax1 : P -> tensor Z.
Local Open Scope Qc_scope.

(** What [pixel_accuracy] returns, when it returns, is a fraction. *)
Lemma pixel_accuracy_fraction (predict y_true : tensor Z) (q : float) :
  well_formed predict -> well_formed y_true ->
  pixel_accuracy predict y_true = Ok q -> 0 ≤ q ∧ q ≤ 1.
Proof.
  intros Hwp Hwt. unfold pixel_accuracy. case_decide as Hshape; [|done].
  rewrite total_loop, correct_count, Z.mul_1_l. unfold truediv.
  case_decide as Hzero; [done|]. intros Hq.
  apply (f_equal (fun r => match r with Ok q => q | Raise _ => 0 end)) in Hq.
  cbv beta iota in Hq. subst q.
  apply fraction_bounds; [|lia]. split; [apply count_pixels_nonneg|].
  unfold count_pixels.
  pose proof (filter_length_le (fun px : Z * Z => px.1 = px.2)
                (zip (data predict) (data y_true))) as Hle.
  rewrite length_zip in Hle. unfold well_formed in Hwp. lia.
Qed.

(** The sum of the pixel accuracies grows by at most 1 with each batch. *)
Lemma test_loop_bounds (dataloader : list (X * tensor Z))
    (sums sums' : float * float * option float) :
  Forall (fun batch : X * tensor Z =>
    well_formed (argmax1 (model batch.1)) ∧ well_formed batch.2) dataloader ->
  for_each (test_batch model loss_fn argmax1) dataloader sums = Ok sums' ->
  sums.1.2 ≤ sums'.1.2 ∧ sums'.1.2 ≤ sums.1.2 + of_int (Z.of_nat (length dataloader)).
Proof.
  intros Hall. revert sums.
  induction Hall as [|[x y] l [Hwp Hwt] _ IH]; intros [[test_loss pixel_acc] mean_acc].
  - cbn [for_each length]. intros Hsums.
    apply (f_equal (fun r => match r with Ok s => s | Raise _ => sums' end)) in Hsums.
    cbv beta iota in Hsums. subst sums'. cbn [fst snd].
    change (Z.of_nat 0) with 0%Z. unfold of_int. rewrite Z2Qc_inj_0, Qcplus_0_r.
    split; apply Qcle_refl.
  - cbn [for_each test_batch fst snd] in *.
    destruct (pixel_accuracy (argmax1 (model x)) y) as [q|e] eqn:Hq; [|done].
    cbn [mbind result_bind]. intros Hsums.
    destruct (pixel_accuracy_fraction _ _ q Hwp Hwt Hq) as [Hq0 Hq1].
    destruct (IH _ Hsums) as [Hlow Hhigh]. cbn [fst snd] in Hlow, Hhigh.
    cbn [length]. unfold of_int in *.
    rewrite Nat2Z.inj_succ, <- Z.add_1_l, Z2Qc_inj_add, Z2Qc_inj_1. split.
    + etrans; [|exact Hlow]. rewrite <- (Qcplus_0_r pixel_acc) at 1.
      by apply Qcplus_le_mono_l.
    + etrans; [exact Hhigh|]. rewrite !Qcplus_assoc.
      apply Qcplus_le_mono_r. by apply Qcplus_le_mono_l.
Qed.
End evaluation_bounds.

(** X25: on a data loader without batches, [test] raises
    [ZeroDivisionError] when it averages; and whenever [test] returns, on
    batches of at most the 2^24 elements that the [float32] count of
    [pixel_accuracy] is exact for, the pixel accuracy that it reports is a
    fraction. *)
Theorem test_pixel_accuracy_bounds {X P : Type} (model : X -> P)
    (loss_fn : P -> tensor Z -> float) (argmax1 : P -> tensor Z)
    (dataloader : list (X * tensor Z)) (report : float * option float * float) :
  Forall (fun batch : X * tensor Z =>
    well_formed (argmax1 (model batch.1)) ∧ well_formed batch.2
    ∧ float32_exact (shape batch.2)) dataloader ->
  test model loss_fn argmax1 [] = Raise ZeroDivisionError
  ∧ (test model loss_fn argmax1 dataloader = Ok report ->
     dataloader ≠ [] ∧ (0 ≤ report.1.1)%Qc ∧ (report.1.1 ≤ 1)%Qc).
Proof.
  intros Hall. split; [reflexivity|]. unfold test.
  destruct (for_each _ dataloader _) as [[[test_loss pixel_acc] mean_acc]|e] eqn:Hloop;
    [|done].
  cbn [mbind result_bind test_averages]. unfold truediv.
  case_decide as Hzero; [done|]. cbn [mbind result_bind]. intros Hreport.
  apply (f_equal (fun r => match r with Ok s => s | Raise _ => report end)) in Hreport.
  cbv beta iota in Hreport. subst report. cbn [fst snd].
  split; [by intros ->|].
  assert (Forall (fun batch : X * tensor Z =>
            well_formed (argmax1 (model batch.1)) ∧ well_formed batch.2) dataloader)
    as Hwf by (eapply List.Forall_impl; [|exact Hall]; intros ? (? & ? & _); done).
  destruct (test_loop_bounds model loss_fn argmax1 dataloader _ _ Hwf Hloop)
    as [Hlow Hhigh].
  cbn [fst snd] in Hlow, Hhigh. rewrite Qcplus_0_l in Hhigh.
  assert (0 < of_int (Z.of_nat (length dataloader)))%Qc as Hpos.
  { unfold of_int. rewrite <- Z2Qc_inj_0. apply (proj1 (Z2Qc_inj_lt _ _)). lia. }
  pose proof (Qcinv_pos _ Hpos) as Hinv. unfold Qcdiv. split.
  - apply Qcmult_nonneg_nonneg; [done|by apply Qclt_le_weak].
  - rewrite <- (Qcmult_inv_r (of_int (Z.of_nat (length dataloader))))
      by (by apply not_eq_sym, Qclt_not_eq).
    apply Qcmult_le_mono_nonneg_r; [by apply Qclt_le_weak|done].
Qed.

Lemma test_pixel_accuracy_bounds_witness :
  let dataloader :=
    [(Tensor [4]%nat [0; 1; 1; 2]%Z, Tensor [4]%nat [0; 1; 2; 2]%Z)] in
  match test (fun x : tensor Z => x) (fun _ _ => 0%Qc) (fun p => p) dataloader with
  | Ok report => (0 ≤ report.1.1)%Qc ∧ (report.1.1 ≤ 1)%Qc
  | Raise _ => True
  end.
Proof.
  intros dataloader.
  destruct (test (fun x : tensor Z => x) (fun _ _ => 0%Qc) (fun p => p) dataloader)
    as [report|e] eqn:Hreport; [|exact I].
  eapply (test_pixel_accuracy_bounds (fun x : tensor Z => x) (fun _ _ => 0%Qc) (fun p => p)
            dataloader report); [|exact Hreport].
  repeat constructor. unfold float32_exact. simpl. lia.
Defined.

(** X26: when the class predicted at every pixel of every batch is the
    ground truth, and the batches have elements, at most the 2^24 that the
    [float32] count of [pixel_accuracy] is exact for, [test] reports a pixel
    accuracy of 1 and a mean accuracy of 1. *)
Theorem test_perfect {X P : Type} (model : X -> P) (loss_fn : P -> tensor Z -> float)
    (argmax1 : P -> tensor Z) (dataloader : list (X * tensor Z)) :
  dataloader ≠ [] ->
  Forall (fun batch : X * tensor Z =>
    argmax1 (model batch.1) = batch.2 ∧ well_formed batch.2
    ∧ numel (shape batch.2) ≠ 0%nat ∧ float32_exact (shape batch.2)) dataloader ->
  ∃ loss, test model loss_fn argmax1 dataloader = Ok (1%Qc, Some 1%Qc, loss).
Proof.
  intros Hne Hall. unfold test.
  assert (Forall (fun batch : X * tensor Z =>
            argmax1 (model batch.1) = batch.2 ∧ well_formed batch.2
            ∧ numel (shape batch.2) ≠ 0%nat) dataloader)
    as Hexact by (eapply List.Forall_impl; [|exact Hall]; intros ? (? & ? & ? & _); done).
  destruct (test_loop_perfect model loss_fn argmax1 dataloader 0%Qc 0%Qc 0%Qc Hexact)
    as [loss ->].
  cbn [mbind result_bind test_averages].
  assert (Z.of_nat (length dataloader) ≠ 0%Z) as Hlen by (destruct dataloader; simpl; [done|lia]).
  rewrite !truediv_nonzero by done. cbn [mbind result_bind fmap option_fmap option_map].
  eexists. rewrite !Qcplus_0_l. unfold Qcdiv.
  rewrite Qcmult_inv_r by by apply of_int_nonzero. done.
Qed.

Lemma test_perfect_witness :
  let y := Tensor [1; 2; 2]%nat [0; 1; 1; 20]%Z in
  ∃ loss,
    test (fun x : tensor Z => x) (fun _ _ => 0%Qc) (fun p => p) [(y, y); (y, y)]
    = Ok (1%Qc, Some 1%Qc, loss).
Proof.
  intros y.
  apply (test_perfect (fun x : tensor Z => x) (fun _ _ => 0%Qc) (fun p => p)).
  - discriminate.
  - repeat constructor; unfold float32_exact; simpl; lia.
Defined.

(** X27: when the classes predicted for the first batch have not the shape
    of its labels, [test] raises [AssertionError]. *)
Theorem test_shape_mismatch {X P : Type} (model : X -> P) (loss_fn : P -> tensor Z -> float)
    (argmax1 : P -> tensor Z) (x : X) (y : tensor Z) (rest : list (X * tensor Z)) :
  shape (argmax1 (model x)) ≠ shape y ->
  test model loss_fn argmax1 ((x, y) :: rest) = Raise AssertionError.
Proof.
  intros Hshape. unfold test. cbn [for_each test_batch].
  unfold pixel_accuracy. by rewrite decide_False.
Qed.

Lemma test_shape_mismatch_witness :
  test (fun x : tensor Z => x) (fun _ _ => 0%Qc) (fun p => p)
    [(Tensor [4]%nat [0; 1; 1; 2]%Z, Tensor [2; 2]%nat [0; 1; 1; 2]%Z)]
  = Raise AssertionError.
Proof.
  apply (test_shape_mismatch (fun x : tensor Z => x) (fun _ _ => 0%Qc) (fun p => p)).
  discriminate.
Defined.
